(** * Trivia Arena: the request handlers of [src/actions/index.ts]
    over the four tables of [db/config.ts].

    The store is embedded as four lists of rows (insertion order is the
    scan order of an unordered [select]).  A handler is a computation that
    threads the store and may throw an [ActionError]; writes made before a
    throw stay in the store, as in the source, which opens no transaction.
    [crypto.randomUUID()] and [new Date()] are read from an [Effects]
    record, JS numbers that hold scores, indexes and timestamps are
    integers ([Z]).  [recordAnswer] adds and subtracts scores as integers,
    which is what the source computes as long as the scores are safe
    integers; [recordAnswer_binary64] is the same handler with the
    source's binary64 arithmetic, and the two are shown to agree on safe
    integers.  Handlers take inputs of the shape their zod schema
    parses; the primary keys and references of the schema are predicates
    on stores, assumed where a property needs them. *)

From Stdlib Require Import ZArith String List Lia.
From stdpp Require Import base decidable option list strings sorting.

Local Open Scope string_scope.
Local Open Scope list_scope.

(** ** Rows of the four tables *)

Definition Date := Z.

Module TriviaRooms.
Record row := mk {
  id : string;
  hostUserId : string;
  name : string;
  accessCode : option string;
  status : option string;
  maxPlayers : option Z;
  createdAt : Date;
  updatedAt : Date }.
End TriviaRooms.

Module TriviaPlayers.
Record row := mk {
  id : string;
  roomId : string;
  userId : option string;
  displayName : string;
  totalScore : Z;
  joinedAt : Date;
  leftAt : option Date }.
End TriviaPlayers.

Module TriviaQuestions.
Record row := mk {
  id : string;
  roomId : string;
  orderIndex : Z;
  questionText : string;
  optionA : option string;
  optionB : option string;
  optionC : option string;
  optionD : option string;
  correctOptionKey : option string;
  timeLimitSeconds : option Z;
  createdAt : Date }.
End TriviaQuestions.

Module TriviaAnswers.
Record row := mk {
  id : string;
  questionId : string;
  playerId : string;
  selectedOptionKey : option string;
  isCorrect : bool;
  answeredAt : Date;
  scoreAwarded : Z }.
End TriviaAnswers.

Record DB := mkDB {
  rooms : list TriviaRooms.row;
  players : list TriviaPlayers.row;
  questions : list TriviaQuestions.row;
  answers : list TriviaAnswers.row }.

Definition set_rooms (t : list TriviaRooms.row) (d : DB) : DB :=
  mkDB t (players d) (questions d) (answers d).
Definition set_players (t : list TriviaPlayers.row) (d : DB) : DB :=
  mkDB (rooms d) t (questions d) (answers d).
Definition set_questions (t : list TriviaQuestions.row) (d : DB) : DB :=
  mkDB (rooms d) (players d) t (answers d).
Definition set_answers (t : list TriviaAnswers.row) (d : DB) : DB :=
  mkDB (rooms d) (players d) (questions d) t.

(** ** Values of the zod enums and JS truthiness *)

Inductive OptionKey := KeyA | KeyB | KeyC | KeyD.

Definition key_text (k : OptionKey) : string :=
  match k with KeyA => "A" | KeyB => "B" | KeyC => "C" | KeyD => "D" end.

Inductive RoomStatus := Lobby | InProgress | Completed.

Definition status_text (s : RoomStatus) : string :=
  match s with
  | Lobby => "lobby" | InProgress => "in-progress" | Completed => "completed"
  end.

(** [!!s] for a string that may be absent: absent and empty are falsy. *)
Definition truthy (s : option string) : bool :=
  match s with
  | Some EmptyString => false
  | Some _ => true
  | None => false
  end.

(** ** The caller *)

(** Modelled from the spec: the authenticated identity that [App.Locals]
    holds, whose declaration is not among the sources; the handlers read
    its [id] and its optional [email]. *)
Record User := mkUser { user_id : string; user_email : option string }.

Record ActionAPIContext := mkContext { locals_user : option User }.

(** What a handler draws from its environment: one identifier and one
    timestamp per call. *)
Record Effects := mkEffects { randomUUID : string; newDate : Date }.

(** ** Handlers as store-threading computations that may throw *)

Inductive ActionError := UNAUTHORIZED | NOT_FOUND | BAD_REQUEST | FORBIDDEN.

Inductive outcome (A : Type) :=
| Success (a : A)
| Throw (e : ActionError).
Arguments Success {A} a.
Arguments Throw {A} e.

Definition Action (A : Type) : Type := DB -> outcome A * DB.

Definition ret {A} (a : A) : Action A := fun d => (Success a, d).
Definition throw {A} (e : ActionError) : Action A := fun d => (Throw e, d).
Definition bind {A B} (m : Action A) (k : A -> Action B) : Action B :=
  fun d => match m d with
           | (Success a, d') => k a d'
           | (Throw e, d') => (Throw e, d')
           end.
Definition query {A} (f : DB -> A) : Action A := fun d => (Success (f d), d).
Definition write (f : DB -> DB) : Action unit := fun d => (Success tt, f d).

Notation "'let*' x ':=' m 'in' k" := (bind m (fun x => k))
  (at level 10, x name, m at level 100, k at level 200).
Notation "m ';;;' k" := (bind m (fun _ => k))
  (at level 100, k at level 200, right associativity).

(** ** The table API *)

(** [select().from(t).where(P)]: the rows of [t] that satisfy [P]. *)
Definition select_where {R} (P : R -> Prop) `{!forall r, Decision (P r)}
  (t : list R) : list R := filter P t.

(** [const [x] = ... .limit(1)]: the first row, if there is one. *)
Definition limit1 {R} (t : list R) : option R := head t.

(** [update(t).set(f).where(P)]: every row that satisfies [P] is rewritten. *)
Definition update_where {R} (P : R -> Prop) `{!forall r, Decision (P r)}
  (f : R -> R) (t : list R) : list R :=
  (fun r => if decide (P r) then f r else r) <$> t.

(** [insert(t).values(r)]. *)
Definition insert_values {R} (r : R) (t : list R) : list R := t ++ [r].

(** ** requireUser and loadOwnedRoom *)

Definition requireUser (context : ActionAPIContext) : Action User :=
  match locals_user context with
  | None => throw UNAUTHORIZED
  | Some user => ret user
  end.

Definition loadOwnedRoom (roomId userId : string) : Action TriviaRooms.row :=
  let* room := query (fun d =>
    limit1 (select_where
      (fun r => TriviaRooms.id r = roomId /\ TriviaRooms.hostUserId r = userId)
      (rooms d))) in
  match room with
  | None => throw NOT_FOUND
  | Some room => ret room
  end.

(** ** createRoom *)

Record createRoom_input := mkCreateRoom {
  cr_name : string;
  cr_accessCode : option string;
  cr_status : option RoomStatus;
  cr_maxPlayers : option Z }.

Definition createRoom (input : createRoom_input)
  (context : ActionAPIContext) (fx : Effects) : Action TriviaRooms.row :=
  let* user := requireUser context in
  let now := newDate fx in
  let room :=
    TriviaRooms.mk (randomUUID fx) (user_id user) (cr_name input)
      (cr_accessCode input)
      (Some (status_text (default Lobby (cr_status input))))
      (cr_maxPlayers input) now now in
  write (fun d => set_rooms (insert_values room (rooms d)) d) ;;;
  ret room.

(** ** updateRoom *)

Record updateRoom_input := mkUpdateRoom {
  ur_id : string;
  ur_name : option string;
  ur_accessCode : option string;
  ur_status : option RoomStatus;
  ur_maxPlayers : option Z }.

(** The zod schema of updateRoom: what the handler can receive. *)
Definition updateRoom_schema (input : updateRoom_input) : Prop :=
  ur_id input <> EmptyString
  /\ ur_name input <> Some EmptyString
  /\ (forall n, ur_maxPlayers input = Some n -> (0 < n)%Z).

(** The keys of the [updates] object, in the order they are assigned. *)
Inductive room_update :=
| set_updatedAt (d : Date)
| set_name (s : string)
| set_accessCode (s : string)
| set_status (s : string)
| set_maxPlayers (n : Z).

Definition apply_room_update (r : TriviaRooms.row) (u : room_update)
  : TriviaRooms.row :=
  let '(TriviaRooms.mk id host name code status maxp created updated) := r in
  match u with
  | set_updatedAt d => TriviaRooms.mk id host name code status maxp created d
  | set_name s => TriviaRooms.mk id host s code status maxp created updated
  | set_accessCode s => TriviaRooms.mk id host name (Some s) status maxp created updated
  | set_status s => TriviaRooms.mk id host name code (Some s) maxp created updated
  | set_maxPlayers n => TriviaRooms.mk id host name code status (Some n) created updated
  end.

(** [{...room, ...updates}], also what [set(updates)] does to a row. *)
Definition spread_updates (updates : list room_update) (r : TriviaRooms.row)
  : TriviaRooms.row := foldl apply_room_update r updates.

Definition updateRoom_updates (input : updateRoom_input) (fx : Effects)
  : list room_update :=
  [set_updatedAt (newDate fx)]
  ++ (if truthy (ur_name input)
      then from_option (fun s => [set_name s]) [] (ur_name input) else [])
  ++ from_option (fun s => [set_accessCode s]) [] (ur_accessCode input)
  ++ from_option (fun s => [set_status (status_text s)]) [] (ur_status input)
  ++ from_option (fun n => [set_maxPlayers n]) [] (ur_maxPlayers input).

Definition updateRoom (input : updateRoom_input)
  (context : ActionAPIContext) (fx : Effects) : Action TriviaRooms.row :=
  let* user := requireUser context in
  let* room := loadOwnedRoom (ur_id input) (user_id user) in
  let updates := updateRoom_updates input fx in
  if decide (length updates = 1%nat) then throw BAD_REQUEST else
  write (fun d => set_rooms
    (update_where (fun r => TriviaRooms.id r = TriviaRooms.id room)
       (spread_updates updates) (rooms d)) d) ;;;
  ret (spread_updates updates room).

(** ** listMyRooms *)

Record listMyRooms_input := mkListMyRooms { lm_page : Z; lm_pageSize : Z }.

Record listing (R : Type) := mkListing { items : list R; total : Z }.
Arguments mkListing {R} items total.
Arguments items {R} l.
Arguments total {R} l.

(** [orderBy(asc(key))], as a stable sort on the key. *)
Definition key_le {R} (key : R -> Z) (a b : R) : Prop := (key a <= key b)%Z.

#[global] Instance key_le_dec {R} (key : R -> Z) : RelDecision (key_le key) :=
  fun a b => decide (key a <= key b)%Z.

Definition orderBy_asc {R} (key : R -> Z) (t : list R) : list R :=
  merge_sort (key_le key) t.

Definition listMyRooms (input : listMyRooms_input)
  (context : ActionAPIContext) : Action (listing TriviaRooms.row) :=
  let* user := requireUser context in
  let offset := ((lm_page input - 1) * lm_pageSize input)%Z in
  let* page_rooms := query (fun d =>
    take (Z.to_nat (lm_pageSize input))
      (drop (Z.to_nat offset)
         (orderBy_asc TriviaRooms.createdAt
            (select_where (fun r => TriviaRooms.hostUserId r = user_id user)
               (rooms d))))) in
  let* countResult := query (fun d =>
    Z.of_nat (length
      (select_where (fun r => TriviaRooms.hostUserId r = user_id user)
         (rooms d)))) in
  ret (mkListing page_rooms countResult).

(** ** upsertQuestion *)

Record upsertQuestion_input := mkUpsertQuestion {
  uq_roomId : string;
  uq_id : option string;
  uq_orderIndex : Z;
  uq_questionText : string;
  uq_optionA : option string;
  uq_optionB : option string;
  uq_optionC : option string;
  uq_optionD : option string;
  uq_correctOptionKey : option OptionKey;
  uq_timeLimitSeconds : option Z }.

(** [set(questionPayload)] on a question row: [id] and [createdAt] stay. *)
Definition spread_questionPayload (input : upsertQuestion_input)
  (q : TriviaQuestions.row) : TriviaQuestions.row :=
  TriviaQuestions.mk (TriviaQuestions.id q) (uq_roomId input)
    (uq_orderIndex input) (uq_questionText input)
    (uq_optionA input) (uq_optionB input) (uq_optionC input) (uq_optionD input)
    (key_text <$> uq_correctOptionKey input) (uq_timeLimitSeconds input)
    (TriviaQuestions.createdAt q).

Definition upsertQuestion (input : upsertQuestion_input)
  (context : ActionAPIContext) (fx : Effects) : Action TriviaQuestions.row :=
  let* user := requireUser context in
  let* _ := loadOwnedRoom (uq_roomId input) (user_id user) in
  if truthy (uq_id input) then
    let input_id := default EmptyString (uq_id input) in
    let* existing := query (fun d =>
      limit1 (select_where (fun q => TriviaQuestions.id q = input_id)
                (questions d))) in
    match existing with
    | None => throw NOT_FOUND
    | Some existing =>
      if decide (TriviaQuestions.roomId existing <> uq_roomId input)
      then throw FORBIDDEN else
      write (fun d => set_questions
        (update_where (fun q => TriviaQuestions.id q = input_id)
           (spread_questionPayload input) (questions d)) d) ;;;
      ret (spread_questionPayload input existing)
    end
  else
    let newQuestion :=
      TriviaQuestions.mk (randomUUID fx) (uq_roomId input)
        (uq_orderIndex input) (uq_questionText input)
        (uq_optionA input) (uq_optionB input) (uq_optionC input)
        (uq_optionD input) (key_text <$> uq_correctOptionKey input)
        (uq_timeLimitSeconds input) (newDate fx) in
    write (fun d => set_questions (insert_values newQuestion (questions d)) d) ;;;
    ret newQuestion.

(** ** listRoomQuestions *)

Record listRoomQuestions_input := mkListRoomQuestions { lq_roomId : string }.

Definition listRoomQuestions (input : listRoomQuestions_input)
  (context : ActionAPIContext) : Action (listing TriviaQuestions.row) :=
  let* user := requireUser context in
  let* _ := loadOwnedRoom (lq_roomId input) (user_id user) in
  let* questions := query (fun d =>
    orderBy_asc TriviaQuestions.orderIndex
      (select_where (fun q => TriviaQuestions.roomId q = lq_roomId input)
         (questions d))) in
  ret (mkListing questions (Z.of_nat (length questions))).

(** ** joinRoom *)

Record joinRoom_input := mkJoinRoom {
  jr_roomId : string;
  jr_displayName : option string }.

Definition joinRoom (input : joinRoom_input)
  (context : ActionAPIContext) (fx : Effects) : Action TriviaPlayers.row :=
  let* user := requireUser context in
  let* room := query (fun d =>
    limit1 (select_where (fun r => TriviaRooms.id r = jr_roomId input)
              (rooms d))) in
  match room with
  | None => throw NOT_FOUND
  | Some room =>
  let* existing := query (fun d =>
    limit1 (select_where
      (fun p => TriviaPlayers.roomId p = jr_roomId input
                /\ TriviaPlayers.userId p = Some (user_id user))
      (players d))) in
  match existing with
  | Some existing => ret existing
  | None =>
    let player :=
      TriviaPlayers.mk (randomUUID fx) (jr_roomId input) (Some (user_id user))
        (default (default "Player" (user_email user)) (jr_displayName input))
        0%Z (newDate fx) None in
    write (fun d => set_players (insert_values player (players d)) d) ;;;
    ret player
  end end.

(** ** recordAnswer *)

Record recordAnswer_input := mkRecordAnswer {
  ra_questionId : string;
  ra_playerId : string;
  ra_selectedOptionKey : option OptionKey }.

Definition answer_isCorrect (selected : option OptionKey)
  (correct : option string) : bool :=
  truthy (key_text <$> selected) && truthy correct
  && bool_decide (key_text <$> selected = correct).

(** The handler with the scores added and subtracted as integers, which
    is the source's arithmetic on safe integers; [recordAnswer_binary64]
    below evaluates them on JS numbers. *)
Definition recordAnswer (input : recordAnswer_input)
  (context : ActionAPIContext) (fx : Effects) : Action TriviaAnswers.row :=
  let* user := requireUser context in
  let* question := query (fun d =>
    limit1 (select_where
      (fun q => TriviaQuestions.id q = ra_questionId input) (questions d))) in
  match question with
  | None => throw NOT_FOUND
  | Some question =>
  let* player := query (fun d =>
    limit1 (select_where
      (fun p => TriviaPlayers.id p = ra_playerId input) (players d))) in
  match player with
  | None => throw NOT_FOUND
  | Some player =>
  if decide (TriviaPlayers.roomId player <> TriviaQuestions.roomId question)
  then throw BAD_REQUEST else
  let* room := query (fun d =>
    limit1 (select_where
      (fun r => TriviaRooms.id r = TriviaQuestions.roomId question)
      (rooms d))) in
  match room with
  | None => throw NOT_FOUND
  | Some room =>
  let isOwner := bool_decide (TriviaRooms.hostUserId room = user_id user) in
  let isPlayerUser :=
    bool_decide (TriviaPlayers.userId player = Some (user_id user)) in
  if negb isOwner && negb isPlayerUser then throw FORBIDDEN else
  let isCorrect :=
    answer_isCorrect (ra_selectedOptionKey input)
                     (TriviaQuestions.correctOptionKey question) in
  let newScore := if isCorrect then 10%Z else 0%Z in
  let* existingAnswer := query (fun d =>
    limit1 (select_where
      (fun a => TriviaAnswers.questionId a = ra_questionId input
                /\ TriviaAnswers.playerId a = ra_playerId input)
      (answers d))) in
  let now := newDate fx in
  let previousScore := from_option TriviaAnswers.scoreAwarded 0%Z existingAnswer in
  let answerId := from_option TriviaAnswers.id (randomUUID fx) existingAnswer in
  (match existingAnswer with
   | Some _ =>
     write (fun d => set_answers
       (update_where (fun a => TriviaAnswers.id a = answerId)
          (fun a => TriviaAnswers.mk (TriviaAnswers.id a)
                      (TriviaAnswers.questionId a) (TriviaAnswers.playerId a)
                      (key_text <$> ra_selectedOptionKey input)
                      isCorrect now newScore)
          (answers d)) d)
   | None =>
     write (fun d => set_answers
       (insert_values
          (TriviaAnswers.mk answerId (ra_questionId input) (ra_playerId input)
             (key_text <$> ra_selectedOptionKey input) isCorrect now newScore)
          (answers d)) d)
   end) ;;;
  write (fun d => set_players
    (update_where (fun p => TriviaPlayers.id p = TriviaPlayers.id player)
       (fun p => TriviaPlayers.mk (TriviaPlayers.id p) (TriviaPlayers.roomId p)
                   (TriviaPlayers.userId p) (TriviaPlayers.displayName p)
                   (TriviaPlayers.totalScore player - previousScore + newScore)%Z
                   (TriviaPlayers.joinedAt p) (TriviaPlayers.leftAt p))
       (players d)) d) ;;;
  ret (TriviaAnswers.mk answerId (ra_questionId input) (ra_playerId input)
         (key_text <$> ra_selectedOptionKey input) isCorrect now newScore)
  end end end.

(** ** Observations on a store, used to state the properties *)

Definition question_of (questionId : string) (d : DB) : option TriviaQuestions.row :=
  limit1 (select_where (fun q => TriviaQuestions.id q = questionId) (questions d)).

Definition player_of (playerId : string) (d : DB) : option TriviaPlayers.row :=
  limit1 (select_where (fun p => TriviaPlayers.id p = playerId) (players d)).

Definition room_of (roomId : string) (d : DB) : option TriviaRooms.row :=
  limit1 (select_where (fun r => TriviaRooms.id r = roomId) (rooms d)).

Definition owned_room_of (roomId userId : string) (d : DB) : option TriviaRooms.row :=
  limit1 (select_where
    (fun r => TriviaRooms.id r = roomId /\ TriviaRooms.hostUserId r = userId)
    (rooms d)).

(** The answer rows of one (question, player) pair. *)
Definition answers_for (questionId playerId : string) (d : DB)
  : list TriviaAnswers.row :=
  select_where
    (fun a => TriviaAnswers.questionId a = questionId
              /\ TriviaAnswers.playerId a = playerId) (answers d).

Definition answer_of (questionId playerId : string) (d : DB)
  : option TriviaAnswers.row := limit1 (answers_for questionId playerId d).

(** The player rows of one (room, user) pair. *)
Definition players_for (roomId : string) (userId : option string) (d : DB)
  : list TriviaPlayers.row :=
  select_where
    (fun p => TriviaPlayers.roomId p = roomId /\ TriviaPlayers.userId p = userId)
    (players d).

Definition players_in (roomId : string) (d : DB) : list TriviaPlayers.row :=
  select_where (fun p => TriviaPlayers.roomId p = roomId) (players d).

(** The award as the specification words it: ten points when both keys
    are present and equal, none otherwise. *)
Definition spec_isCorrect (selected : option OptionKey)
  (correct : option string) : bool :=
  match selected, correct with
  | Some k, Some c => bool_decide (key_text k = c)
  | _, _ => false
  end.

Definition spec_newScore (selected : option OptionKey)
  (correct : option string) : Z :=
  if spec_isCorrect selected correct then 10%Z else 0%Z.

(** ** What a recordAnswer that passes its checks writes *)

(** The row that recordAnswer writes and returns. *)
Definition recorded_answer (input : recordAnswer_input) (fx : Effects)
  (question : TriviaQuestions.row) (existingAnswer : option TriviaAnswers.row)
  : TriviaAnswers.row :=
  let isCorrect := answer_isCorrect (ra_selectedOptionKey input)
                     (TriviaQuestions.correctOptionKey question) in
  TriviaAnswers.mk (from_option TriviaAnswers.id (randomUUID fx) existingAnswer)
    (ra_questionId input) (ra_playerId input)
    (key_text <$> ra_selectedOptionKey input) isCorrect (newDate fx)
    (if isCorrect then 10%Z else 0%Z).

(** The answers table after recordAnswer went through. *)
Definition recorded_answers (input : recordAnswer_input) (fx : Effects)
  (question : TriviaQuestions.row) (d : DB) : list TriviaAnswers.row :=
  let existingAnswer := answer_of (ra_questionId input) (ra_playerId input) d in
  let new := recorded_answer input fx question existingAnswer in
  match existingAnswer with
  | Some _ =>
    update_where (fun a => TriviaAnswers.id a = TriviaAnswers.id new)
      (fun a => TriviaAnswers.mk (TriviaAnswers.id a)
                  (TriviaAnswers.questionId a) (TriviaAnswers.playerId a)
                  (TriviaAnswers.selectedOptionKey new)
                  (TriviaAnswers.isCorrect new) (TriviaAnswers.answeredAt new)
                  (TriviaAnswers.scoreAwarded new))
      (answers d)
  | None => insert_values new (answers d)
  end.

(** The players table after recordAnswer went through. *)
Definition recorded_players (input : recordAnswer_input) (fx : Effects)
  (question : TriviaQuestions.row) (player : TriviaPlayers.row) (d : DB)
  : list TriviaPlayers.row :=
  let existingAnswer := answer_of (ra_questionId input) (ra_playerId input) d in
  let new := recorded_answer input fx question existingAnswer in
  update_where (fun p => TriviaPlayers.id p = TriviaPlayers.id player)
    (fun p => TriviaPlayers.mk (TriviaPlayers.id p) (TriviaPlayers.roomId p)
                (TriviaPlayers.userId p) (TriviaPlayers.displayName p)
                (TriviaPlayers.totalScore player
                 - from_option TriviaAnswers.scoreAwarded 0 existingAnswer
                 + TriviaAnswers.scoreAwarded new)%Z
                (TriviaPlayers.joinedAt p) (TriviaPlayers.leftAt p))
    (players d).

(** Who may record: the room's host or the player's own user. *)
Definition may_record (user : User) (room : TriviaRooms.row)
  (player : TriviaPlayers.row) : Prop :=
  TriviaRooms.hostUserId room = user_id user
  \/ TriviaPlayers.userId player = Some (user_id user).

Definition with_totalScore (p : TriviaPlayers.row) (s : Z) : TriviaPlayers.row :=
  TriviaPlayers.mk (TriviaPlayers.id p) (TriviaPlayers.roomId p)
    (TriviaPlayers.userId p) (TriviaPlayers.displayName p) s
    (TriviaPlayers.joinedAt p) (TriviaPlayers.leftAt p).


(** ** The server as a whole *)

Inductive request :=
| CreateRoom (input : createRoom_input)
| UpdateRoom (input : updateRoom_input)
| ListMyRooms (input : listMyRooms_input)
| UpsertQuestion (input : upsertQuestion_input)
| ListRoomQuestions (input : listRoomQuestions_input)
| JoinRoom (input : joinRoom_input)
| RecordAnswer (input : recordAnswer_input).

Definition outcome_error {A} (o : outcome A) : option ActionError :=
  match o with Success _ => None | Throw e => Some e end.

Definition finish {A} (r : outcome A * DB) : option ActionError * DB :=
  (outcome_error (fst r), snd r).

(** One call of one of the seven actions: the error it throws, if any, and
    the store it leaves. *)
Definition server (req : request) (context : ActionAPIContext) (fx : Effects)
  (d : DB) : option ActionError * DB :=
  match req with
  | CreateRoom input => finish (createRoom input context fx d)
  | UpdateRoom input => finish (updateRoom input context fx d)
  | ListMyRooms input => finish (listMyRooms input context d)
  | UpsertQuestion input => finish (upsertQuestion input context fx d)
  | ListRoomQuestions input => finish (listRoomQuestions input context d)
  | JoinRoom input => finish (joinRoom input context fx d)
  | RecordAnswer input => finish (recordAnswer input context fx d)
  end.

(** ** Scores and the constraints of the schema they rely on *)

Definition sum_scores (l : list TriviaAnswers.row) : Z :=
  foldr (fun a s => (TriviaAnswers.scoreAwarded a + s)%Z) 0%Z l.

(** The sum of scoreAwarded over the answer rows of one player. *)
Definition score_of (playerId : string) (d : DB) : Z :=
  sum_scores
    (select_where (fun a => TriviaAnswers.playerId a = playerId) (answers d)).

Definition scores_consistent (d : DB) : Prop :=
  forall p, p ∈ players d ->
    TriviaPlayers.totalScore p = score_of (TriviaPlayers.id p) d.

(** [id] is the primary key of TriviaAnswers, and [playerId] references
    the [id] of a row of TriviaPlayers. *)
Definition answers_keyed (d : DB) : Prop :=
  NoDup (TriviaAnswers.id <$> answers d)
  /\ forall a, a ∈ answers d ->
       TriviaAnswers.playerId a ∈ (TriviaPlayers.id <$> players d).

(** [crypto.randomUUID()] returns an identifier no row carries yet. *)
Definition fresh_uuid (fx : Effects) (d : DB) : Prop :=
  (randomUUID fx ∉ (TriviaPlayers.id <$> players d))
  /\ (randomUUID fx ∉ (TriviaAnswers.id <$> answers d)).

(** The row joinRoom inserts for a user who is not in the room yet. *)
Definition joining_player (input : joinRoom_input) (user : User) (fx : Effects)
  : TriviaPlayers.row :=
  TriviaPlayers.mk (randomUUID fx) (jr_roomId input) (Some (user_id user))
    (default (default "Player" (user_email user)) (jr_displayName input))
    0%Z (newDate fx) None.

(** The stores that runs of actions reach from the empty store, drawing
    an unused identifier at each step. *)
Inductive reachable : DB -> Prop :=
| reachable_empty : reachable (mkDB [] [] [] [])
| reachable_step req context fx d :
    reachable d -> fresh_uuid fx d ->
    reachable (snd (server req context fx d)).

(** ** The ownership gate *)

(** The caller hosts no room with this id (an anonymous caller hosts none). *)
Definition not_host (context : ActionAPIContext) (roomId : string) (d : DB)
  : Prop :=
  forall user, locals_user context = Some user ->
    forall r, r ∈ rooms d -> TriviaRooms.id r = roomId ->
      TriviaRooms.hostUserId r <> user_id user.

Definition gate_error (context : ActionAPIContext) : ActionError :=
  match locals_user context with
  | Some _ => NOT_FOUND
  | None => UNAUTHORIZED
  end.

(** ** What updateRoom writes *)

(** The caller's room with the provided fields and updatedAt written. *)
Definition updated_room (input : updateRoom_input) (fx : Effects)
  (room : TriviaRooms.row) : TriviaRooms.row :=
  TriviaRooms.mk (TriviaRooms.id room) (TriviaRooms.hostUserId room)
    (default (TriviaRooms.name room) (ur_name input))
    (match ur_accessCode input with
     | Some code => Some code
     | None => TriviaRooms.accessCode room
     end)
    (match ur_status input with
     | Some s => Some (status_text s)
     | None => TriviaRooms.status room
     end)
    (match ur_maxPlayers input with
     | Some n => Some n
     | None => TriviaRooms.maxPlayers room
     end)
    (TriviaRooms.createdAt room) (newDate fx).

Definition nothing_provided (input : updateRoom_input) : Prop :=
  ur_name input = None /\ ur_accessCode input = None
  /\ ur_status input = None /\ ur_maxPlayers input = None.

(** ** A sample store *)

(** A sample store: a completed room with its question, its one player
    and the answer the player gave, and a second room with a question. *)
Module Sample.
Local Open Scope Z_scope.
Definition room1 : TriviaRooms.row :=
  TriviaRooms.mk "r1" "host" "Friday Fun Quiz" None (Some "completed")
    (Some 1%Z) 100 100.
Definition room2 : TriviaRooms.row :=
  TriviaRooms.mk "r2" "bob" "Sunday Quiz" (Some "secret") (Some "lobby")
    None 101 101.
Definition question1 : TriviaQuestions.row :=
  TriviaQuestions.mk "q1" "r1" 0 "2 + 2 ?" (Some "3") (Some "4") None None
    (Some "B") None 110.
Definition question2 : TriviaQuestions.row :=
  TriviaQuestions.mk "q2" "r2" 0 "3 + 3 ?" (Some "6") (Some "5") None None
    (Some "A") None 111.
Definition player1 : TriviaPlayers.row :=
  TriviaPlayers.mk "p1" "r1" (Some "alice") "Alice" 10 120 None.
Definition answer1 : TriviaAnswers.row :=
  TriviaAnswers.mk "a1" "q1" "p1" (Some "B") true 130 10.
Definition store : DB :=
  mkDB [room1; room2] [player1] [question1; question2] [answer1].

Definition host : User := mkUser "host" (Some "host@example.org").
Definition alice : User := mkUser "alice" None.
Definition bob : User := mkUser "bob" (Some "bob@example.org").
Definition as_user (u : User) : ActionAPIContext := mkContext (Some u).
Definition fx : Effects := mkEffects "fresh" 200.
End Sample.

(** ** Further observations: hosted rooms and pages *)

(** The rooms a user hosts. *)
Definition hosted_rooms (userId : string) (d : DB) : list TriviaRooms.row :=
  select_where (fun r => TriviaRooms.hostUserId r = userId) (rooms d).

(** The items of one page of listMyRooms (none when the call throws). *)
Definition page_items (page pageSize : Z) (context : ActionAPIContext) (d : DB)
  : list TriviaRooms.row :=
  match fst (listMyRooms (mkListMyRooms page pageSize) context d) with
  | Success l => items l
  | Throw _ => []
  end.

(** ** What upsertQuestion writes *)

(** The row upsertQuestion inserts when no id is given. *)
Definition new_question (input : upsertQuestion_input) (fx : Effects)
  : TriviaQuestions.row :=
  TriviaQuestions.mk (randomUUID fx) (uq_roomId input)
    (uq_orderIndex input) (uq_questionText input)
    (uq_optionA input) (uq_optionB input) (uq_optionC input)
    (uq_optionD input) (key_text <$> uq_correctOptionKey input)
    (uq_timeLimitSeconds input) (newDate fx).

(** The questions listRoomQuestions returns for a room (none on a throw). *)
Definition listed_questions (roomId : string) (context : ActionAPIContext)
  (d : DB) : list TriviaQuestions.row :=
  match fst (listRoomQuestions (mkListRoomQuestions roomId) context d) with
  | Success l => items l
  | Throw _ => []
  end.

(** ** What identifies a row: the columns no action rewrites *)

Definition room_key (r : TriviaRooms.row) : string * string * Date :=
  (TriviaRooms.id r, TriviaRooms.hostUserId r, TriviaRooms.createdAt r).

Definition player_key (p : TriviaPlayers.row)
  : string * string * option string * string * Date * option Date :=
  (TriviaPlayers.id p, TriviaPlayers.roomId p, TriviaPlayers.userId p,
   TriviaPlayers.displayName p, TriviaPlayers.joinedAt p,
   TriviaPlayers.leftAt p).

Definition question_key (q : TriviaQuestions.row) : string * Date :=
  (TriviaQuestions.id q, TriviaQuestions.createdAt q).

Definition answer_key (a : TriviaAnswers.row) : string * string * string :=
  (TriviaAnswers.id a, TriviaAnswers.questionId a, TriviaAnswers.playerId a).

Definition question_ref (q : TriviaQuestions.row) : string * string :=
  (TriviaQuestions.id q, TriviaQuestions.roomId q).

(** An award is ten points for a correct answer and none otherwise. *)
Definition award_ok (a : TriviaAnswers.row) : Prop :=
  TriviaAnswers.scoreAwarded a
  = if TriviaAnswers.isCorrect a then 10%Z else 0%Z.

(** ** The shape of one step of the server *)

(** What one action can do to a store: rewrite rows in place, keeping the
    columns that identify them, or append one row to one table. *)
Definition step_shape (fx : Effects) (d d' : DB) : Prop :=
  ((room_key <$> rooms d') = (room_key <$> rooms d)
   /\ (player_key <$> players d') = (player_key <$> players d)
   /\ (question_key <$> questions d') = (question_key <$> questions d)
   /\ (NoDup (TriviaQuestions.id <$> questions d) ->
       (question_ref <$> questions d') = (question_ref <$> questions d))
   /\ (answer_key <$> answers d') = (answer_key <$> answers d)
   /\ (forall a, a ∈ answers d' -> a ∈ answers d \/ award_ok a))
  \/ (exists r,
        rooms d' = rooms d ++ [r] /\ TriviaRooms.id r = randomUUID fx
        /\ players d' = players d /\ questions d' = questions d
        /\ answers d' = answers d)
  \/ (exists p,
        players d' = players d ++ [p] /\ TriviaPlayers.id p = randomUUID fx
        /\ TriviaPlayers.roomId p ∈ (TriviaRooms.id <$> rooms d)
        /\ is_Some (TriviaPlayers.userId p)
        /\ players_for (TriviaPlayers.roomId p) (TriviaPlayers.userId p) d = []
        /\ TriviaPlayers.totalScore p = 0%Z
        /\ rooms d' = rooms d /\ questions d' = questions d
        /\ answers d' = answers d)
  \/ (exists q,
        questions d' = questions d ++ [q]
        /\ TriviaQuestions.id q = randomUUID fx
        /\ TriviaQuestions.roomId q ∈ (TriviaRooms.id <$> rooms d)
        /\ rooms d' = rooms d /\ players d' = players d
        /\ answers d' = answers d)
  \/ (exists a,
        answers d' = answers d ++ [a] /\ TriviaAnswers.id a = randomUUID fx
        /\ (exists q p,
              q ∈ questions d /\ p ∈ players d
              /\ TriviaQuestions.id q = TriviaAnswers.questionId a
              /\ TriviaPlayers.id p = TriviaAnswers.playerId a
              /\ TriviaPlayers.roomId p = TriviaQuestions.roomId q)
        /\ answers_for (TriviaAnswers.questionId a)
             (TriviaAnswers.playerId a) d = []
        /\ award_ok a
        /\ rooms d' = rooms d /\ questions d' = questions d
        /\ (player_key <$> players d') = (player_key <$> players d)).

(** ** Stores the server produces *)

(** [crypto.randomUUID()] returns an identifier no row of any table
    carries. *)
Definition fresh_all (fx : Effects) (d : DB) : Prop :=
  (randomUUID fx ∉ (TriviaRooms.id <$> rooms d))
  /\ (randomUUID fx ∉ (TriviaPlayers.id <$> players d))
  /\ (randomUUID fx ∉ (TriviaQuestions.id <$> questions d))
  /\ (randomUUID fx ∉ (TriviaAnswers.id <$> answers d)).

(** The stores that runs of actions produce from the empty store. *)
Inductive produced : DB -> Prop :=
| produced_empty : produced (mkDB [] [] [] [])
| produced_step req context fx d :
    produced d -> fresh_all fx d ->
    produced (snd (server req context fx d)).

(** The primary keys of the schema. *)
Definition keys_unique (d : DB) : Prop :=
  NoDup (TriviaRooms.id <$> rooms d)
  /\ NoDup (TriviaPlayers.id <$> players d)
  /\ NoDup (TriviaQuestions.id <$> questions d)
  /\ NoDup (TriviaAnswers.id <$> answers d).

(** The references of the schema, and more: an answer joins a question and
    a player of one room. *)
Definition refs_ok (d : DB) : Prop :=
  (forall p, p ∈ players d ->
     TriviaPlayers.roomId p ∈ (TriviaRooms.id <$> rooms d))
  /\ (forall q, q ∈ questions d ->
        TriviaQuestions.roomId q ∈ (TriviaRooms.id <$> rooms d))
  /\ (forall a, a ∈ answers d ->
        exists q p,
          q ∈ questions d /\ p ∈ players d
          /\ TriviaQuestions.id q = TriviaAnswers.questionId a
          /\ TriviaPlayers.id p = TriviaAnswers.playerId a
          /\ TriviaPlayers.roomId p = TriviaQuestions.roomId q).

(** One answer row per (question, player), one player row per (room,
    user), and no player row without a user. *)
Definition pairs_unique (d : DB) : Prop :=
  (forall q p, (length (answers_for q p d) <= 1)%nat)
  /\ (forall r u, (length (players_for r u d) <= 1)%nat)
  /\ (forall p, p ∈ players d -> is_Some (TriviaPlayers.userId p)).

Definition awards_ok (d : DB) : Prop :=
  forall a, a ∈ answers d -> award_ok a.

Definition store_invariant (d : DB) : Prop :=
  keys_unique d /\ refs_ok d /\ pairs_unique d /\ awards_ok d
  /\ scores_consistent d.

(** ** A sample run from the empty store *)

Module Run.
Local Open Scope Z_scope.
Definition store0 : DB := mkDB [] [] [] [].
Definition store1 : DB :=
  snd (server (CreateRoom (mkCreateRoom "Friday Fun Quiz" None None None))
         (Sample.as_user Sample.host) (mkEffects "r1" 100) store0).
Definition store2 : DB :=
  snd (server
         (UpsertQuestion
            (mkUpsertQuestion "r1" None 0 "2 + 2 ?" (Some "3") (Some "4") None
               None (Some KeyB) None))
         (Sample.as_user Sample.host) (mkEffects "q1" 110) store1).
Definition store3 : DB :=
  snd (server (JoinRoom (mkJoinRoom "r1" (Some "Alice")))
         (Sample.as_user Sample.alice) (mkEffects "p1" 120) store2).
Definition store4 : DB :=
  snd (server (RecordAnswer (mkRecordAnswer "q1" "p1" (Some KeyB)))
         (Sample.as_user Sample.alice) (mkEffects "a1" 130) store3).
End Run.

(** ** The arithmetic of JS numbers on integers *)

(** [Number.MAX_SAFE_INTEGER]. *)
Definition MAX_SAFE_INTEGER : Z := 2 ^ 53 - 1.

(** [Number.isSafeInteger]. *)
Definition safe_integer (z : Z) : Prop :=
  (- MAX_SAFE_INTEGER <= z <= MAX_SAFE_INTEGER)%Z.

(** The binary64 number nearest to an integer, ties to the even
    significand: integers below 2^53 in magnitude are numbers, beyond them
    the numbers are 2^(e-52) apart, [e] the binary exponent.  (An integer
    of magnitude 2^1024 or more rounds to an infinity, which no column of
    the model holds; the properties below stay on safe integers.) *)
Definition binary64_round (z : Z) : Z :=
  let a := Z.abs z in
  if (a <? 2 ^ 53)%Z then z else
  let ulp := (2 ^ (Z.log2 a - 52))%Z in
  let q := (a / ulp)%Z in
  let r := (a mod ulp)%Z in
  let q' :=
    if (2 * r <? ulp)%Z then q
    else if (ulp <? 2 * r)%Z then (q + 1)%Z
    else if Z.even q then q else (q + 1)%Z in
  (Z.sgn z * (q' * ulp))%Z.

(** [a - b] and [a + b] on JS numbers that hold integers. *)
Definition js_sub (a b : Z) : Z := binary64_round (a - b).
Definition js_add (a b : Z) : Z := binary64_round (a + b).

(** ** recordAnswer, with the arithmetic of the source *)

(** The handler of recordAnswer with [player.totalScore - previousScore +
    newScore] evaluated on JS numbers; everything else is [recordAnswer]. *)
Definition recordAnswer_binary64 (input : recordAnswer_input)
  (context : ActionAPIContext) (fx : Effects) : Action TriviaAnswers.row :=
  let* user := requireUser context in
  let* question := query (fun d =>
    limit1 (select_where
      (fun q => TriviaQuestions.id q = ra_questionId input) (questions d))) in
  match question with
  | None => throw NOT_FOUND
  | Some question =>
  let* player := query (fun d =>
    limit1 (select_where
      (fun p => TriviaPlayers.id p = ra_playerId input) (players d))) in
  match player with
  | None => throw NOT_FOUND
  | Some player =>
  if decide (TriviaPlayers.roomId player <> TriviaQuestions.roomId question)
  then throw BAD_REQUEST else
  let* room := query (fun d =>
    limit1 (select_where
      (fun r => TriviaRooms.id r = TriviaQuestions.roomId question)
      (rooms d))) in
  match room with
  | None => throw NOT_FOUND
  | Some room =>
  let isOwner := bool_decide (TriviaRooms.hostUserId room = user_id user) in
  let isPlayerUser :=
    bool_decide (TriviaPlayers.userId player = Some (user_id user)) in
  if negb isOwner && negb isPlayerUser then throw FORBIDDEN else
  let isCorrect :=
    answer_isCorrect (ra_selectedOptionKey input)
                     (TriviaQuestions.correctOptionKey question) in
  let newScore := if isCorrect then 10%Z else 0%Z in
  let* existingAnswer := query (fun d =>
    limit1 (select_where
      (fun a => TriviaAnswers.questionId a = ra_questionId input
                /\ TriviaAnswers.playerId a = ra_playerId input)
      (answers d))) in
  let now := newDate fx in
  let previousScore := from_option TriviaAnswers.scoreAwarded 0%Z existingAnswer in
  let answerId := from_option TriviaAnswers.id (randomUUID fx) existingAnswer in
  (match existingAnswer with
   | Some _ =>
     write (fun d => set_answers
       (update_where (fun a => TriviaAnswers.id a = answerId)
          (fun a => TriviaAnswers.mk (TriviaAnswers.id a)
                      (TriviaAnswers.questionId a) (TriviaAnswers.playerId a)
                      (key_text <$> ra_selectedOptionKey input)
                      isCorrect now newScore)
          (answers d)) d)
   | None =>
     write (fun d => set_answers
       (insert_values
          (TriviaAnswers.mk answerId (ra_questionId input) (ra_playerId input)
             (key_text <$> ra_selectedOptionKey input) isCorrect now newScore)
          (answers d)) d)
   end) ;;;
  write (fun d => set_players
    (update_where (fun p => TriviaPlayers.id p = TriviaPlayers.id player)
       (fun p => TriviaPlayers.mk (TriviaPlayers.id p) (TriviaPlayers.roomId p)
                   (TriviaPlayers.userId p) (TriviaPlayers.displayName p)
                   (js_add (js_sub (TriviaPlayers.totalScore player)
                              previousScore) newScore)
                   (TriviaPlayers.joinedAt p) (TriviaPlayers.leftAt p))
       (players d)) d) ;;;
  ret (TriviaAnswers.mk answerId (ra_questionId input) (ra_playerId input)
         (key_text <$> ra_selectedOptionKey input) isCorrect now newScore)
  end end end.

(** The server with that handler for recordAnswer. *)
Definition server_binary64 (req : request) (context : ActionAPIContext)
  (fx : Effects) (d : DB) : option ActionError * DB :=
  match req with
  | RecordAnswer input => finish (recordAnswer_binary64 input context fx d)
  | _ => server req context fx d
  end.

(** The scores recordAnswer reads and computes for the player are safe
    integers: the stored total and award, their difference, and the
    difference with the full award added. *)
Definition scores_safe (input : recordAnswer_input) (d : DB) : Prop :=
  forall player,
    player_of (ra_playerId input) d = Some player ->
    let previousScore :=
      from_option TriviaAnswers.scoreAwarded 0%Z
        (answer_of (ra_questionId input) (ra_playerId input) d) in
    safe_integer (TriviaPlayers.totalScore player)
    /\ safe_integer previousScore
    /\ safe_integer (TriviaPlayers.totalScore player - previousScore)
    /\ safe_integer (TriviaPlayers.totalScore player - previousScore + 10).

Definition request_scores_safe (req : request) (d : DB) : Prop :=
  match req with
  | RecordAnswer input => scores_safe input d
  | _ => True
  end.

(** ** A sample store at the edge of the safe integers *)

Module Edge.
Local Open Scope Z_scope.
Definition question0 : TriviaQuestions.row :=
  TriviaQuestions.mk "q0" "r1" 0 "1 + 1 ?" (Some "2") (Some "3") None None
    (Some "A") None 105.
Definition player1 : TriviaPlayers.row :=
  TriviaPlayers.mk "p1" "r1" (Some "alice") "Alice" 9007199254740991 120 None.
Definition answer0 : TriviaAnswers.row :=
  TriviaAnswers.mk "a0" "q0" "p1" (Some "A") true 125 9007199254740991.
Definition store : DB :=
  mkDB [Sample.room1] [player1] [question0; Sample.question1] [answer0].
End Edge.

(** * Properties *)

(** ** The handlers on the sample store *)

Example recordAnswer_right_key :
  fst (recordAnswer (mkRecordAnswer "q1" "p1" (Some KeyB))
         (Sample.as_user Sample.host) Sample.fx Sample.store)
  = Success (TriviaAnswers.mk "a1" "q1" "p1" (Some "B") true 200%Z 10%Z).
Proof. reflexivity. Qed.

Example recordAnswer_timeout :
  recordAnswer (mkRecordAnswer "q1" "p1" None)
    (Sample.as_user Sample.alice) Sample.fx Sample.store
  = (Success (TriviaAnswers.mk "a1" "q1" "p1" None false 200%Z 0%Z),
     mkDB [Sample.room1; Sample.room2]
       [TriviaPlayers.mk "p1" "r1" (Some "alice") "Alice" 0%Z 120%Z None]
       [Sample.question1; Sample.question2]
       [TriviaAnswers.mk "a1" "q1" "p1" None false 200%Z 0%Z]).
Proof. reflexivity. Qed.

Example recordAnswer_anonymous :
  recordAnswer (mkRecordAnswer "q1" "p1" (Some KeyB)) (mkContext None)
    Sample.fx Sample.store
  = (Throw UNAUTHORIZED, Sample.store).
Proof. reflexivity. Qed.

Example joinRoom_new_player :
  fst (joinRoom (mkJoinRoom "r2" None) (Sample.as_user Sample.alice)
         Sample.fx Sample.store)
  = Success (TriviaPlayers.mk "fresh" "r2" (Some "alice") "Player" 0%Z 200%Z None).
Proof. reflexivity. Qed.

Example updateRoom_empty_accessCode :
  fst (updateRoom (mkUpdateRoom "r2" None (Some EmptyString) None None)
         (Sample.as_user Sample.bob) Sample.fx Sample.store)
  = Success (TriviaRooms.mk "r2" "bob" "Sunday Quiz" (Some EmptyString)
               (Some "lobby") None 101%Z 200%Z).
Proof. reflexivity. Qed.

Example upsertQuestion_other_room :
  upsertQuestion
    (mkUpsertQuestion "r1" (Some "q2") 1%Z "5 + 5 ?" None None None None None None)
    (Sample.as_user Sample.host) Sample.fx Sample.store
  = (Throw FORBIDDEN, Sample.store).
Proof. reflexivity. Qed.

(** ** Lemmas on the table API *)

Section table_api.
Context {R : Type}.
Implicit Types (P Q : R -> Prop) (f : R -> R) (t : list R).

Lemma select_update_where P Q `{!forall r, Decision (P r)}
    `{!forall r, Decision (Q r)} f t :
  (forall r, P (f r) <-> P r) ->
  select_where P (update_where Q f t) = update_where Q f (select_where P t).
Proof.
  intros Hf. unfold select_where, update_where.
  induction t as [|r t IH]; [done|].
  rewrite fmap_cons, !filter_cons. destruct (decide (Q r)) as [HQ|HQ].
  - destruct (decide (P r)) as [HP|HP].
    + rewrite decide_True by (by apply Hf). rewrite fmap_cons.
      rewrite decide_True by done. by rewrite IH.
    + rewrite decide_False by (by rewrite Hf). done.
  - destruct (decide (P r)); [|done].
    rewrite fmap_cons, decide_False by done. by rewrite IH.
Qed.

Lemma limit1_update_where Q `{!forall r, Decision (Q r)} f t :
  limit1 (update_where Q f t)
  = (fun r => if decide (Q r) then f r else r) <$> limit1 t.
Proof. by destruct t. Qed.

Lemma length_update_where Q `{!forall r, Decision (Q r)} f t :
  length (update_where Q f t) = length t.
Proof. unfold update_where. by rewrite length_fmap. Qed.

Lemma update_where_id Q `{!forall r, Decision (Q r)} f t :
  (forall r, r ∈ t -> Q r -> f r = r) -> update_where Q f t = t.
Proof.
  intros Hf. unfold update_where. induction t as [|r t IH]; [done|].
  rewrite fmap_cons. rewrite IH by (intros; apply Hf; [by right|done]).
  destruct (decide (Q r)); [|done]. rewrite Hf; [done|by left|done].
Qed.

Lemma elem_of_update_where Q `{!forall r, Decision (Q r)} f t r' :
  r' ∈ update_where Q f t <->
  exists r, r ∈ t /\ r' = if decide (Q r) then f r else r.
Proof.
  unfold update_where. rewrite list_elem_of_fmap.
  split; intros (r & H1 & H2); exists r; done.
Qed.

Lemma limit1_select_Some P `{!forall r, Decision (P r)} t r :
  limit1 (select_where P t) = Some r -> P r /\ r ∈ t.
Proof.
  intros Hr. apply head_Some_elem_of in Hr.
  by apply list_elem_of_filter in Hr.
Qed.

Lemma limit1_select_None P `{!forall r, Decision (P r)} t :
  limit1 (select_where P t) = None <-> forall r, r ∈ t -> ~ P r.
Proof.
  unfold limit1, select_where. rewrite head_None. split.
  - intros Hn r Hr HP. by eapply filter_nil_not_elem_of.
  - intros Hn. induction t as [|r t IH]; [done|].
    rewrite filter_cons_False by (apply Hn; by left).
    apply IH. intros; apply Hn; by right.
Qed.

Lemma select_insert_values P `{!forall r, Decision (P r)} t r :
  select_where P (insert_values r t)
  = (select_where P t ++ (if decide (P r) then [r] else []))%list.
Proof.
  unfold select_where, insert_values. by rewrite filter_app.
Qed.
End table_api.

(** The award computed by the handler is the one the specification words. *)
Lemma answer_isCorrect_spec selected correct :
  answer_isCorrect selected correct = spec_isCorrect selected correct.
Proof.
  unfold answer_isCorrect, spec_isCorrect.
  destruct selected as [k|], correct as [c|]; simpl; try done.
  - destruct (bool_decide_reflect (Some (key_text k) = Some c)) as [E|E].
    + injection E as <-. rewrite bool_decide_eq_true_2 by done. by destruct k.
    + rewrite bool_decide_eq_false_2 by congruence.
      by rewrite andb_false_r.
  - destruct k; done.
Qed.

(** ** Running recordAnswer *)

Ltac run_action :=
  unfold bind, query, write, ret, throw; simpl.

Lemma recordAnswer_run input context fx d user question player room :
  locals_user context = Some user ->
  question_of (ra_questionId input) d = Some question ->
  player_of (ra_playerId input) d = Some player ->
  TriviaPlayers.roomId player = TriviaQuestions.roomId question ->
  room_of (TriviaQuestions.roomId question) d = Some room ->
  may_record user room player ->
  recordAnswer input context fx d =
    (Success (recorded_answer input fx question
                (answer_of (ra_questionId input) (ra_playerId input) d)),
     mkDB (rooms d) (recorded_players input fx question player d)
          (questions d) (recorded_answers input fx question d)).
Proof.
  intros Hu Hq Hp Hsame Hr Hmay.
  unfold recordAnswer, requireUser. rewrite Hu. run_action.
  unfold question_of in Hq. rewrite Hq.
  unfold player_of in Hp. rewrite Hp.
  rewrite decide_False by (by intros []).
  unfold room_of in Hr. rewrite Hr.
  assert (negb (bool_decide (TriviaRooms.hostUserId room = user_id user))
          && negb (bool_decide (TriviaPlayers.userId player = Some (user_id user)))
          = false) as ->.
  { destruct Hmay as [H|H]; rewrite (bool_decide_eq_true_2 _ H); simpl; [done|].
    apply andb_false_r. }
  unfold recorded_players, recorded_answers, recorded_answer, answer_of, answers_for.
  destruct (limit1 (select_where _ (answers d))) as [existing|]; done.
Qed.

(** Every throw of recordAnswer leaves the store as it found it. *)
Lemma recordAnswer_throw_unchanged input context fx d e d' :
  recordAnswer input context fx d = (Throw e, d') -> d' = d.
Proof.
  unfold recordAnswer, requireUser.
  destruct (locals_user context) as [user|]; run_action; [|congruence].
  destruct (limit1 (select_where _ (questions d))) as [question|]; [|congruence].
  destruct (limit1 (select_where _ (players d))) as [player|]; [|congruence].
  destruct (decide _); [congruence|].
  destruct (limit1 (select_where _ (rooms d))) as [room|]; [|congruence].
  destruct (negb _ && negb _); [congruence|].
  destruct (limit1 (select_where _ (answers d))); simpl; congruence.
Qed.

(** A successful recordAnswer went through every check. *)
Lemma recordAnswer_Success_inv input context fx d answer d' :
  recordAnswer input context fx d = (Success answer, d') ->
  exists user question player room,
    locals_user context = Some user
    /\ question_of (ra_questionId input) d = Some question
    /\ player_of (ra_playerId input) d = Some player
    /\ TriviaPlayers.roomId player = TriviaQuestions.roomId question
    /\ room_of (TriviaQuestions.roomId question) d = Some room
    /\ may_record user room player.
Proof.
  unfold recordAnswer, requireUser, question_of, player_of, room_of, may_record.
  destruct (locals_user context) as [user|]; run_action; [|congruence].
  destruct (limit1 (select_where _ (questions d))) as [question|] eqn:Hq;
    [|congruence].
  destruct (limit1 (select_where _ (players d))) as [player|] eqn:Hp;
    [|congruence].
  destruct (decide _) as [|Hsame]; [congruence|].
  destruct (limit1 (select_where _ (rooms d))) as [room|] eqn:Hr; [|congruence].
  destruct (bool_decide_reflect (TriviaRooms.hostUserId room = user_id user));
    destruct (bool_decide_reflect
                (TriviaPlayers.userId player = Some (user_id user)));
    simpl; try congruence; intros _;
    exists user, question, player, room;
    split_and!; try done; try (by apply dec_stable);
    try (by left); by right.
Qed.

(** ** Properties of recordAnswer *)

(** With scores added as integers: in every store where the question and
    the player exist, sit in the
    same existing room, and the caller hosts the room or is the player's
    user, recordAnswer succeeds; afterwards the player's totalScore is its
    old value minus the score of the answer row the pair already had (0
    without one) plus the new score, the new score being 10 when the
    selected and the correct key are both present and equal and 0
    otherwise; the returned answer carries that score and the matching
    isCorrect flag. *)
Theorem recordAnswer_score_delta input context fx d user question player room :
  locals_user context = Some user ->
  question_of (ra_questionId input) d = Some question ->
  player_of (ra_playerId input) d = Some player ->
  TriviaPlayers.roomId player = TriviaQuestions.roomId question ->
  room_of (TriviaQuestions.roomId question) d = Some room ->
  may_record user room player ->
  let previousScore :=
    from_option TriviaAnswers.scoreAwarded 0%Z
      (answer_of (ra_questionId input) (ra_playerId input) d) in
  let newScore :=
    spec_newScore (ra_selectedOptionKey input)
      (TriviaQuestions.correctOptionKey question) in
  exists answer d',
    recordAnswer input context fx d = (Success answer, d')
    /\ TriviaPlayers.totalScore <$> player_of (ra_playerId input) d'
       = Some (TriviaPlayers.totalScore player - previousScore + newScore)%Z
    /\ (forall p, p ∈ players d' -> TriviaPlayers.id p = ra_playerId input ->
          TriviaPlayers.totalScore p
          = (TriviaPlayers.totalScore player - previousScore + newScore)%Z)
    /\ TriviaAnswers.scoreAwarded answer = newScore
    /\ TriviaAnswers.isCorrect answer
       = spec_isCorrect (ra_selectedOptionKey input)
           (TriviaQuestions.correctOptionKey question).
Proof.
  intros Hu Hq Hp Hsame Hr Hmay previousScore newScore.
  eexists _, _. split; [by eapply recordAnswer_run|].
  destruct (limit1_select_Some _ _ _ Hp) as [Hid _].
  unfold spec_newScore in newScore. subst previousScore newScore.
  rewrite <- !answer_isCorrect_spec. repeat split.
  - unfold player_of, recorded_players. simpl.
    rewrite select_update_where by done. rewrite limit1_update_where.
    unfold player_of in Hp. rewrite Hp. simpl.
    by rewrite decide_True by done.
  - simpl. unfold recorded_players. intros p Hp' Hpid.
    apply elem_of_update_where in Hp' as (p0 & _ & ->).
    destruct (decide _) as [|Hne]; [done|].
    destruct Hne. simpl in Hpid. congruence.
Qed.

Lemma recordAnswer_score_delta_witness :
  exists answer d',
    recordAnswer (mkRecordAnswer "q1" "p1" (Some KeyA))
      (Sample.as_user Sample.alice) Sample.fx Sample.store = (Success answer, d')
    /\ TriviaPlayers.totalScore <$> player_of "p1" d' = Some 0%Z
    /\ TriviaAnswers.scoreAwarded answer = 0%Z
    /\ TriviaAnswers.isCorrect answer = false.
Proof.
  destruct (recordAnswer_score_delta (mkRecordAnswer "q1" "p1" (Some KeyA))
              (Sample.as_user Sample.alice) Sample.fx Sample.store
              Sample.alice Sample.question1 Sample.player1 Sample.room1)
    as (answer & d' & Hrun & Htotal & _ & Hscore & Hflag);
    [reflexivity | reflexivity | reflexivity | reflexivity | reflexivity
    | right; reflexivity | ].
  exists answer, d'. exact (conj Hrun (conj Htotal (conj Hscore Hflag))).
Defined.

(** recordAnswer either throws and leaves the store alone, or passes every
    check and writes the answer row and the player's score. *)
Lemma recordAnswer_cases input context fx d :
  (exists e, recordAnswer input context fx d = (Throw e, d))
  \/ (exists user question player room,
        locals_user context = Some user
        /\ question_of (ra_questionId input) d = Some question
        /\ player_of (ra_playerId input) d = Some player
        /\ TriviaPlayers.roomId player = TriviaQuestions.roomId question
        /\ room_of (TriviaQuestions.roomId question) d = Some room
        /\ may_record user room player
        /\ recordAnswer input context fx d =
           (Success (recorded_answer input fx question
                       (answer_of (ra_questionId input) (ra_playerId input) d)),
            mkDB (rooms d) (recorded_players input fx question player d)
                 (questions d) (recorded_answers input fx question d))).
Proof.
  destruct (recordAnswer input context fx d) as [[answer|e] d'] eqn:Hrun.
  - right. destruct (recordAnswer_Success_inv _ _ _ _ _ _ Hrun)
      as (user & question & player & room & Hu & Hq & Hp & Hsame & Hr & Hmay).
    exists user, question, player, room. split_and!; try done.
    rewrite <- Hrun. by eapply recordAnswer_run.
  - left. exists e. by rewrite (recordAnswer_throw_unchanged _ _ _ _ _ _ Hrun).
Qed.

(** C4. recordAnswer throws BAD_REQUEST when the player and the question
    exist in different rooms, throws FORBIDDEN when they share an existing
    room and the caller is neither its host nor the player's user, and no
    throw of recordAnswer, whatever its code, modifies a table. *)
Theorem recordAnswer_rejections :
  (forall input context fx d user question player,
     locals_user context = Some user ->
     question_of (ra_questionId input) d = Some question ->
     player_of (ra_playerId input) d = Some player ->
     TriviaPlayers.roomId player <> TriviaQuestions.roomId question ->
     recordAnswer input context fx d = (Throw BAD_REQUEST, d))
  /\ (forall input context fx d user question player room,
        locals_user context = Some user ->
        question_of (ra_questionId input) d = Some question ->
        player_of (ra_playerId input) d = Some player ->
        TriviaPlayers.roomId player = TriviaQuestions.roomId question ->
        room_of (TriviaQuestions.roomId question) d = Some room ->
        TriviaRooms.hostUserId room <> user_id user ->
        TriviaPlayers.userId player <> Some (user_id user) ->
        recordAnswer input context fx d = (Throw FORBIDDEN, d))
  /\ (forall input context fx d e d',
        recordAnswer input context fx d = (Throw e, d') -> d' = d).
Proof.
  split_and!.
  - intros input context fx d user question player Hu Hq Hp Hdiff.
    unfold recordAnswer, requireUser. rewrite Hu. run_action.
    unfold question_of in Hq. rewrite Hq.
    unfold player_of in Hp. rewrite Hp.
    by rewrite decide_True by done.
  - intros input context fx d user question player room Hu Hq Hp Hsame Hr Hh Hpu.
    unfold recordAnswer, requireUser. rewrite Hu. run_action.
    unfold question_of in Hq. rewrite Hq.
    unfold player_of in Hp. rewrite Hp.
    rewrite decide_False by (by intros []).
    unfold room_of in Hr. rewrite Hr.
    by rewrite !bool_decide_eq_false_2 by done.
  - apply recordAnswer_throw_unchanged.
Qed.

Lemma recordAnswer_rejections_witness :
  recordAnswer (mkRecordAnswer "q2" "p1" (Some KeyA))
    (Sample.as_user Sample.alice) Sample.fx Sample.store
  = (Throw BAD_REQUEST, Sample.store)
  /\ recordAnswer (mkRecordAnswer "q1" "p1" (Some KeyB))
       (Sample.as_user Sample.bob) Sample.fx Sample.store
     = (Throw FORBIDDEN, Sample.store)
  /\ snd (recordAnswer (mkRecordAnswer "q9" "p1" None)
            (Sample.as_user Sample.alice) Sample.fx Sample.store)
     = Sample.store.
Proof.
  destruct recordAnswer_rejections as (Hbad & Hforbidden & Hsame).
  split_and!.
  - apply (Hbad _ _ _ _ Sample.alice Sample.question2 Sample.player1);
      [reflexivity | reflexivity | reflexivity | discriminate].
  - apply (Hforbidden _ _ _ _ Sample.bob Sample.question1 Sample.player1
             Sample.room1);
      [reflexivity | reflexivity | reflexivity | reflexivity | reflexivity
      | discriminate | discriminate].
  - apply (Hsame (mkRecordAnswer "q9" "p1" None) (Sample.as_user Sample.alice)
             Sample.fx Sample.store NOT_FOUND). reflexivity.
Defined.

(** Whatever its outcome, recordAnswer keeps every (question, player) pair
    that had at most
    one answer row at one row at most.  When the pair has a row, that row
    is rewritten in place: the returned answer has its id, the table keeps
    its length, and every row keeps its position, id, question and player.
    When the pair has none, exactly the returned row is appended. *)
Theorem recordAnswer_upsert input context fx d :
  let d' := snd (recordAnswer input context fx d) in
  (forall q p, (length (answers_for q p d) <= 1)%nat ->
               (length (answers_for q p d') <= 1)%nat)
  /\ (forall answer,
        fst (recordAnswer input context fx d) = Success answer ->
        match answer_of (ra_questionId input) (ra_playerId input) d with
        | Some existing =>
          TriviaAnswers.id answer = TriviaAnswers.id existing
          /\ length (answers d') = length (answers d)
          /\ (forall i a, answers d !! i = Some a ->
                exists a', answers d' !! i = Some a'
                  /\ TriviaAnswers.id a' = TriviaAnswers.id a
                  /\ TriviaAnswers.questionId a' = TriviaAnswers.questionId a
                  /\ TriviaAnswers.playerId a' = TriviaAnswers.playerId a
                  /\ (TriviaAnswers.id a <> TriviaAnswers.id existing -> a' = a)
                  /\ (TriviaAnswers.id a = TriviaAnswers.id existing ->
                        TriviaAnswers.selectedOptionKey a'
                        = TriviaAnswers.selectedOptionKey answer
                        /\ TriviaAnswers.isCorrect a' = TriviaAnswers.isCorrect answer
                        /\ TriviaAnswers.answeredAt a' = TriviaAnswers.answeredAt answer
                        /\ TriviaAnswers.scoreAwarded a'
                           = TriviaAnswers.scoreAwarded answer))
        | None =>
          answers d' = (answers d ++ [answer])%list
          /\ TriviaAnswers.questionId answer = ra_questionId input
          /\ TriviaAnswers.playerId answer = ra_playerId input
          /\ answers_for (ra_questionId input) (ra_playerId input) d' = [answer]
        end).
Proof.
  intros d'. subst d'.
  destruct (recordAnswer_cases input context fx d)
    as [[e ->]|(user & question & player & room & _ & _ & _ & _ & _ & _ & ->)].
  { simpl. split; [done|]. intros answer Ha. discriminate. }
  cbn [snd fst answers]. unfold recorded_answers. cbn zeta.
  destruct (answer_of _ _ d) as [existing|] eqn:Hex.
  - split.
    + intros q p Hle. unfold answers_for; cbn [answers].
      rewrite select_update_where by done. by rewrite length_update_where.
    + intros answer [= <-]. simpl. split_and!; [done|apply length_update_where|].
      intros i a Hi. unfold update_where. rewrite list_lookup_fmap, Hi. simpl.
      eexists. split; [done|].
      destruct (decide _) as [Heq|Hne]; simpl; split_and!; try done.
  - assert (answers_for (ra_questionId input) (ra_playerId input) d = [])
      as Hnil by (by apply head_None).
    split.
    + intros q p Hle. unfold answers_for; cbn [answers]. rewrite select_insert_values.
      rewrite length_app. destruct (decide _) as [[Hq Hp]|]; simpl in *.
      * subst q p. fold (answers_for (ra_questionId input) (ra_playerId input) d).
        by rewrite Hnil.
      * fold (answers_for q p d). lia.
    + intros answer [= <-]. simpl. split_and!; try done.
      unfold answers_for; cbn [answers]. rewrite select_insert_values.
      fold (answers_for (ra_questionId input) (ra_playerId input) d).
      rewrite Hnil. simpl. by rewrite decide_True by done.
Qed.

Lemma recordAnswer_upsert_witness :
  (length (answers_for "q1" "p1"
     (snd (recordAnswer (mkRecordAnswer "q1" "p1" (Some KeyA))
             (Sample.as_user Sample.alice) Sample.fx Sample.store))) <= 1)%nat.
Proof.
  apply (proj1 (recordAnswer_upsert (mkRecordAnswer "q1" "p1" (Some KeyA))
                  (Sample.as_user Sample.alice) Sample.fx Sample.store)).
  vm_compute. lia.
Defined.

(** What the pair's answer row and the player's row look like after a
    recordAnswer that went through. *)
Lemma answer_of_recorded input fx question d rs ps qs :
  answer_of (ra_questionId input) (ra_playerId input)
    (mkDB rs ps qs (recorded_answers input fx question d))
  = Some (recorded_answer input fx question
            (answer_of (ra_questionId input) (ra_playerId input) d)).
Proof.
  unfold answer_of at 1. unfold answers_for, recorded_answers. cbn [answers].
  destruct (answer_of _ _ d) as [existing|] eqn:Hex; cbn zeta.
  - rewrite select_update_where by done. rewrite limit1_update_where.
    unfold answer_of, answers_for in Hex. rewrite Hex.
    apply limit1_select_Some in Hex as [[Hq Hp] _].
    cbn. rewrite decide_True by done.
    unfold recorded_answer. cbn. by rewrite Hq, Hp.
  - rewrite select_insert_values.
    unfold answer_of, answers_for, limit1 in Hex. apply head_None in Hex.
    rewrite Hex. cbn. by rewrite decide_True by done.
Qed.

Lemma player_of_recorded input fx question player d rs qs ans :
  player_of (ra_playerId input) d = Some player ->
  player_of (ra_playerId input)
    (mkDB rs (recorded_players input fx question player d) qs ans)
  = Some (with_totalScore player
      (TriviaPlayers.totalScore player
       - from_option TriviaAnswers.scoreAwarded 0
           (answer_of (ra_questionId input) (ra_playerId input) d)
       + TriviaAnswers.scoreAwarded
           (recorded_answer input fx question
              (answer_of (ra_questionId input) (ra_playerId input) d)))%Z).
Proof.
  intros Hp. unfold player_of at 1. unfold recorded_players. cbn [players].
  rewrite select_update_where by done. rewrite limit1_update_where.
  unfold player_of in Hp. rewrite Hp. cbn. by rewrite decide_True by done.
Qed.




Section keyed_tables.
Context {R : Type} (key : R -> string).

Lemma fmap_update_where {B} (g : R -> B) (Q : R -> Prop)
    `{!forall r, Decision (Q r)} (f : R -> R) (t : list R) :
  (forall r, g (f r) = g r) -> (g <$> update_where Q f t) = (g <$> t).
Proof.
  intros Hg. unfold update_where. rewrite <- list_fmap_compose.
  apply list_fmap_ext. intros i r _. simpl. by destruct (decide (Q r)).
Qed.

(** Under a primary key, an update by key rewrites one row. *)
Lemma update_where_key (f : R -> R) (l1 l2 : list R) (x : R) :
  NoDup (key <$> (l1 ++ x :: l2)) ->
  update_where (fun r => key r = key x) f (l1 ++ x :: l2)
  = (l1 ++ f x :: l2)%list.
Proof.
  intros Hnd. rewrite fmap_app, fmap_cons in Hnd.
  apply NoDup_app in Hnd as (_ & Hl1 & Hl2). apply NoDup_cons in Hl2 as [Hx _].
  unfold update_where. rewrite fmap_app, fmap_cons.
  rewrite decide_True by done. f_equal; [|f_equal].
  - rewrite <- (list_fmap_id l1) at 2. apply list_fmap_ext. intros i r Hr.
    simpl. destruct (decide _) as [Heq|]; [|done]. exfalso.
    apply (Hl1 (key r)); [|rewrite Heq; by left].
    apply list_elem_of_fmap. exists r. split; [done|].
    by eapply list_elem_of_lookup_2.
  - rewrite <- (list_fmap_id l2) at 2. apply list_fmap_ext. intros i r Hr.
    simpl. destruct (decide _) as [Heq|]; [|done]. exfalso.
    apply Hx. rewrite <- Heq. apply list_elem_of_fmap. exists r.
    split; [done|]. by eapply list_elem_of_lookup_2.
Qed.
End keyed_tables.

Lemma sum_scores_app l1 l2 :
  sum_scores (l1 ++ l2) = (sum_scores l1 + sum_scores l2)%Z.
Proof. induction l1 as [|a l1 IH]; simpl; [done|]. rewrite IH. lia. Qed.

(** ** What each action leaves untouched *)

Ltac run_handler :=
  unfold requireUser, loadOwnedRoom; run_action;
  repeat case_match; simplify_eq; simpl; try done.

Lemma createRoom_frame input context fx d :
  let d' := snd (createRoom input context fx d) in
  players d' = players d /\ questions d' = questions d /\ answers d' = answers d.
Proof. unfold createRoom. run_handler. Qed.

Lemma updateRoom_frame input context fx d :
  let d' := snd (updateRoom input context fx d) in
  players d' = players d /\ questions d' = questions d /\ answers d' = answers d.
Proof. unfold updateRoom. run_handler. Qed.

Lemma listMyRooms_frame input context d :
  snd (listMyRooms input context d) = d.
Proof. unfold listMyRooms. run_handler. Qed.

Lemma upsertQuestion_frame input context fx d :
  let d' := snd (upsertQuestion input context fx d) in
  rooms d' = rooms d /\ players d' = players d /\ answers d' = answers d.
Proof. unfold upsertQuestion. run_handler. Qed.

Lemma listRoomQuestions_frame input context d :
  snd (listRoomQuestions input context d) = d.
Proof. unfold listRoomQuestions. run_handler. Qed.

Lemma joinRoom_unfold input context fx d :
  joinRoom input context fx d =
  match locals_user context with
  | None => (Throw UNAUTHORIZED, d)
  | Some user =>
    match room_of (jr_roomId input) d with
    | None => (Throw NOT_FOUND, d)
    | Some _ =>
      match limit1 (players_for (jr_roomId input) (Some (user_id user)) d) with
      | Some existing => (Success existing, d)
      | None =>
        (Success (joining_player input user fx),
         set_players (players d ++ [joining_player input user fx]) d)
      end
    end
  end.
Proof.
  unfold joinRoom, requireUser, room_of, players_for.
  destruct (locals_user context) as [user|]; run_action; [|done].
  destruct (limit1 (select_where _ (rooms d))); [|done].
  destruct (limit1 (select_where _ (players d))); done.
Qed.

Lemma joinRoom_frame input context fx d :
  let d' := snd (joinRoom input context fx d) in
  rooms d' = rooms d /\ questions d' = questions d /\ answers d' = answers d.
Proof. rewrite joinRoom_unfold. repeat case_match; done. Qed.

(** ** recordAnswer and joinRoom keep the scores consistent *)

Lemma score_of_recorded input fx question d rs ps qs p :
  NoDup (TriviaAnswers.id <$> answers d) ->
  score_of p (mkDB rs ps qs (recorded_answers input fx question d))
  = (score_of p d
     + if decide (p = ra_playerId input)
       then TriviaAnswers.scoreAwarded
              (recorded_answer input fx question
                 (answer_of (ra_questionId input) (ra_playerId input) d))
            - from_option TriviaAnswers.scoreAwarded 0
                (answer_of (ra_questionId input) (ra_playerId input) d)
       else 0)%Z.
Proof.
  intros Hnd. unfold score_of, recorded_answers. cbn [answers].
  destruct (answer_of _ _ d) as [existing|] eqn:Hex; cbn zeta.
  - apply limit1_select_Some in Hex as [[_ Hp] Hin].
    apply list_elem_of_split in Hin as (l1 & l2 & Hl). rewrite Hl in Hnd |- *.
    change (TriviaAnswers.id (recorded_answer input fx question (Some existing)))
      with (TriviaAnswers.id existing).
    rewrite (update_where_key TriviaAnswers.id) by done.
    unfold select_where. rewrite !filter_app, !filter_cons, !sum_scores_app.
    cbn [TriviaAnswers.playerId from_option]. rewrite Hp.
    destruct (decide (ra_playerId input = p)) as [<-|Hne].
    + rewrite decide_True by done. cbn. lia.
    + rewrite decide_False by done. lia.
  - unfold select_where, insert_values. rewrite filter_app, sum_scores_app.
    rewrite filter_cons, filter_nil. cbn [TriviaAnswers.playerId recorded_answer from_option].
    destruct (decide (ra_playerId input = p)) as [<-|Hne].
    + rewrite decide_True by done. cbn. lia.
    + rewrite decide_False by done. cbn. lia.
Qed.

Lemma recordAnswer_preserves input context fx d :
  answers_keyed d -> fresh_uuid fx d -> scores_consistent d ->
  let d' := snd (recordAnswer input context fx d) in
  answers_keyed d' /\ scores_consistent d'.
Proof.
  intros [Hnd Hfk] [_ Hfresh] Hsc d'. subst d'.
  destruct (recordAnswer_cases input context fx d)
    as [[e ->]|(user & question & player & room
                & _ & _ & Hp & _ & _ & _ & ->)]; [done|].
  cbn [snd]. apply limit1_select_Some in Hp as [Hpid Hpin].
  assert (TriviaPlayers.id <$> recorded_players input fx question player d
          = TriviaPlayers.id <$> players d) as Hids
    by (by apply fmap_update_where).
  split; [split|].
  - cbn [answers]. unfold recorded_answers.
    destruct (answer_of _ _ d); cbn zeta.
    + by rewrite fmap_update_where.
    + unfold insert_values. rewrite fmap_app. apply NoDup_app.
      split_and!; [done| |apply NoDup_singleton].
      intros x Hx Hx'. apply list_elem_of_singleton in Hx'. by subst x.
  - cbn [answers players]. rewrite Hids. unfold recorded_answers.
    intros a Ha. destruct (answer_of _ _ d); cbn zeta in Ha.
    + apply elem_of_update_where in Ha as (a0 & Ha0 & ->).
      destruct (decide _); cbn; by apply Hfk.
    + apply elem_of_app in Ha as [Ha|Ha]; [by apply Hfk|].
      apply list_elem_of_singleton in Ha as ->. cbn. rewrite <- Hpid.
      apply list_elem_of_fmap. by exists player.
  - intros p' Hp'. cbn [players] in Hp'. rewrite score_of_recorded by done.
    apply elem_of_update_where in Hp' as (p0 & Hp0 & ->).
    destruct (decide (TriviaPlayers.id p0 = TriviaPlayers.id player)) as [Heq|Hne].
    + cbn. rewrite Heq, Hpid. rewrite decide_True by done.
      rewrite (Hsc player Hpin), Hpid. lia.
    + rewrite decide_False by congruence. rewrite (Hsc p0 Hp0). lia.
Qed.

Lemma joinRoom_preserves input context fx d :
  answers_keyed d -> fresh_uuid fx d -> scores_consistent d ->
  let d' := snd (joinRoom input context fx d) in
  answers_keyed d' /\ scores_consistent d'.
Proof.
  intros [Hnd Hfk] [Hfresh _] Hsc d'. subst d'. rewrite joinRoom_unfold.
  destruct (locals_user context) as [user|]; [|done].
  destruct (room_of _ d); [|done].
  destruct (limit1 _); [done|]. cbn [snd]. split; [split|].
  - done.
  - intros a Ha. cbn [players set_players]. rewrite fmap_app.
    apply elem_of_app. left. by apply Hfk.
  - intros p Hp. cbn [players set_players] in Hp.
    apply elem_of_app in Hp as [Hp|Hp]; [by apply Hsc|].
    apply list_elem_of_singleton in Hp as ->.
    unfold score_of, joining_player.
    cbn [answers set_players TriviaPlayers.id TriviaPlayers.totalScore].
    assert (select_where
              (fun a => TriviaAnswers.playerId a = randomUUID fx) (answers d)
            = []) as ->; [|done].
    apply head_None. change (head ?l) with (limit1 l).
    apply limit1_select_None.
    intros a Ha Hpa. apply Hfresh. rewrite <- Hpa. by apply Hfk.
Qed.

(** Tables that no action but joinRoom and recordAnswer writes. *)
Lemma server_frame req context fx d :
  let d' := snd (server req context fx d) in
  match req with
  | RecordAnswer _ => True
  | JoinRoom _ => answers d' = answers d
  | _ => players d' = players d /\ answers d' = answers d
  end.
Proof.
  destruct req as [input|input|input|input|input|input|input];
    unfold server, finish; cbn [snd].
  - by destruct (createRoom_frame input context fx d) as (? & ? & ?).
  - by destruct (updateRoom_frame input context fx d) as (? & ? & ?).
  - by rewrite listMyRooms_frame.
  - by destruct (upsertQuestion_frame input context fx d) as (? & ? & ?).
  - by rewrite listRoomQuestions_frame.
  - apply joinRoom_frame.
  - done.
Qed.

Lemma server_step_consistent req context fx d :
  answers_keyed d -> fresh_uuid fx d -> scores_consistent d ->
  let d' := snd (server req context fx d) in
  answers_keyed d' /\ scores_consistent d'.
Proof.
  intros Hkey Hfresh Hsc d'. subst d'.
  pose proof (server_frame req context fx d) as Hfr.
  destruct req as [input|input|input|input|input|input|input];
    cbv beta iota zeta in Hfr.
  1-5: destruct Hfr as [Hp Ha];
       unfold answers_keyed, scores_consistent, score_of; by rewrite Hp, Ha.
  - by apply joinRoom_preserves.
  - by apply recordAnswer_preserves.
Qed.

(** With scores added as integers: every action keeps each player's
    totalScore equal to the sum of
    scoreAwarded over the player's answer rows, on stores that satisfy the
    key constraints the schema declares for TriviaAnswers and with an
    unused identifier from [crypto.randomUUID()]; the constraints are kept
    as well.  joinRoom adds at most one player, with totalScore 0 and no
    answer rows, and touches no answer; the actions other than joinRoom
    and recordAnswer write neither table. *)
Theorem server_preserves_scores req context fx d :
  answers_keyed d -> fresh_uuid fx d -> scores_consistent d ->
  let d' := snd (server req context fx d) in
  answers_keyed d' /\ scores_consistent d'
  /\ match req with
     | RecordAnswer _ => True
     | JoinRoom _ =>
       answers d' = answers d
       /\ (players d' = players d
           \/ exists p, players d' = players d ++ [p]
                /\ TriviaPlayers.totalScore p = 0%Z
                /\ score_of (TriviaPlayers.id p) d' = 0%Z)
     | _ => players d' = players d /\ answers d' = answers d
     end.
Proof.
  intros Hkey Hfresh Hsc d'.
  destruct (server_step_consistent req context fx d Hkey Hfresh Hsc)
    as [Hkey' Hsc'].
  pose proof (server_frame req context fx d) as Hfr. cbv zeta in Hfr.
  fold d' in Hkey', Hsc', Hfr. split_and!; [done|done|].
  destruct req as [input|input|input|input|input|input|input]; try done.
  split; [done|]. revert Hsc'. subst d'. unfold server, finish. cbn [snd].
  rewrite joinRoom_unfold. repeat case_match; auto.
  cbn [snd]. intros Hsc'. right. eexists. split; [done|]. split; [done|].
  rewrite <- Hsc'; [done|]. cbn. apply elem_of_app. right. by left.
Qed.

Lemma sample_store_keyed : answers_keyed Sample.store.
Proof.
  split.
  - apply NoDup_singleton.
  - intros a Ha. apply list_elem_of_singleton in Ha as ->. by left.
Qed.

Lemma sample_store_fresh : fresh_uuid Sample.fx Sample.store.
Proof.
  split; intros H; apply list_elem_of_singleton in H; discriminate.
Qed.

Lemma sample_store_consistent : scores_consistent Sample.store.
Proof. intros p Hp. apply list_elem_of_singleton in Hp as ->. reflexivity. Qed.

Lemma server_preserves_scores_witness :
  scores_consistent
    (snd (server (RecordAnswer (mkRecordAnswer "q1" "p1" (Some KeyA)))
            (Sample.as_user Sample.alice) Sample.fx Sample.store)).
Proof.
  apply (server_preserves_scores
           (RecordAnswer (mkRecordAnswer "q1" "p1" (Some KeyA)))
           (Sample.as_user Sample.alice) Sample.fx Sample.store
           sample_store_keyed sample_store_fresh sample_store_consistent).
Defined.

(** Every store a run reaches has consistent scores. *)
Lemma reachable_scores_consistent d :
  reachable d -> answers_keyed d /\ scores_consistent d.
Proof.
  induction 1 as [|req context fx d _ [Hkey Hsc] Hfresh].
  - split; [split|]; [apply NoDup_nil_2|intros a Ha|intros p Hp];
      by apply not_elem_of_nil in Ha || apply not_elem_of_nil in Hp.
  - by apply server_step_consistent.
Qed.

Lemma owned_room_of_None roomId user d :
  (forall r, r ∈ rooms d -> TriviaRooms.id r = roomId ->
     TriviaRooms.hostUserId r <> user_id user) ->
  owned_room_of roomId (user_id user) d = None.
Proof.
  intros Hno. apply limit1_select_None. intros r Hr [Hid Hhost].
  by apply (Hno r).
Qed.

(** C5. updateRoom, upsertQuestion and listRoomQuestions (the question
    listing) throw NOT_FOUND for a signed-in caller unless a room with the
    given id exists whose hostUserId is the caller's id; for every caller
    who is not the host of the named room they fail and write nothing. *)
Theorem owner_gate context d roomId :
  not_host context roomId d ->
  (forall input fx, ur_id input = roomId ->
     updateRoom input context fx d = (Throw (gate_error context), d))
  /\ (forall input fx, uq_roomId input = roomId ->
        upsertQuestion input context fx d = (Throw (gate_error context), d))
  /\ (forall input, lq_roomId input = roomId ->
        listRoomQuestions input context d = (Throw (gate_error context), d)).
Proof.
  intros Hno. unfold gate_error, not_host in *.
  destruct (locals_user context) as [user|] eqn:Hu.
  - pose proof (owned_room_of_None roomId user d (Hno user eq_refl)) as Hnone.
    unfold owned_room_of in Hnone.
    split_and!; intros input; intros; subst roomId;
      unfold updateRoom, upsertQuestion, listRoomQuestions,
        requireUser, loadOwnedRoom;
      rewrite Hu; run_action; by rewrite Hnone.
  - split_and!; intros input; intros;
      unfold updateRoom, upsertQuestion, listRoomQuestions, requireUser;
      by rewrite Hu.
Qed.

Lemma owner_gate_witness :
  updateRoom (mkUpdateRoom "r1" (Some "Renamed") None None None)
    (Sample.as_user Sample.alice) Sample.fx Sample.store
  = (Throw NOT_FOUND, Sample.store)
  /\ upsertQuestion
       (mkUpsertQuestion "r1" None 1%Z "5 + 5 ?" None None None None None None)
       (Sample.as_user Sample.alice) Sample.fx Sample.store
     = (Throw NOT_FOUND, Sample.store)
  /\ listRoomQuestions (mkListRoomQuestions "r1")
       (Sample.as_user Sample.alice) Sample.store
     = (Throw NOT_FOUND, Sample.store).
Proof.
  assert (not_host (Sample.as_user Sample.alice) "r1" Sample.store) as Hno.
  { intros user [= <-] r Hr Hid.
    apply elem_of_cons in Hr as [->|Hr]; [discriminate|].
    apply list_elem_of_singleton in Hr as ->. discriminate. }
  destruct (owner_gate (Sample.as_user Sample.alice) Sample.store "r1" Hno)
    as (Hupdate & Hupsert & Hlist).
  split_and!; [apply Hupdate|apply Hupsert|apply Hlist]; reflexivity.
Defined.

(** ** listRoomQuestions *)

#[global] Instance key_le_total {R} (key : R -> Z) : Total (key_le key).
Proof. intros a b. unfold key_le. lia. Qed.

#[global] Instance key_le_trans {R} (key : R -> Z) : Transitive (key_le key).
Proof. intros a b c. unfold key_le. lia. Qed.

(** C6. For a room the caller hosts, listRoomQuestions returns exactly the
    questions whose roomId is the given id, in ascending order of
    orderIndex, and reports as total the number of items returned. *)
Theorem listRoomQuestions_sorted input context d user room :
  locals_user context = Some user ->
  room ∈ rooms d ->
  TriviaRooms.id room = lq_roomId input ->
  TriviaRooms.hostUserId room = user_id user ->
  exists l,
    listRoomQuestions input context d = (Success l, d)
    /\ items l ≡ₚ filter (fun q => TriviaQuestions.roomId q = lq_roomId input)
                   (questions d)
    /\ (forall q, q ∈ items l <->
          q ∈ questions d /\ TriviaQuestions.roomId q = lq_roomId input)
    /\ StronglySorted
         (fun a b => (TriviaQuestions.orderIndex a <= TriviaQuestions.orderIndex b)%Z)
         (items l)
    /\ total l = Z.of_nat (length (items l)).
Proof.
  intros Hu Hin Hid Hhost.
  unfold listRoomQuestions, requireUser, loadOwnedRoom. rewrite Hu. run_action.
  destruct (limit1 (select_where _ (rooms d))) as [owned|] eqn:Howned.
  - eexists. split; [done|]. cbn [items total]. unfold orderBy_asc.
    split_and!.
    + apply merge_sort_Permutation.
    + intros q. rewrite merge_sort_Permutation. unfold select_where.
      rewrite list_elem_of_filter. tauto.
    + apply (StronglySorted_merge_sort (key_le TriviaQuestions.orderIndex)).
    + done.
  - exfalso. eapply limit1_select_None in Howned; [|done]. by apply Howned.
Qed.

Lemma listRoomQuestions_sorted_witness :
  exists l,
    listRoomQuestions (mkListRoomQuestions "r1")
      (Sample.as_user Sample.host) Sample.store = (Success l, Sample.store)
    /\ total l = Z.of_nat (length (items l)).
Proof.
  destruct (listRoomQuestions_sorted (mkListRoomQuestions "r1")
              (Sample.as_user Sample.host) Sample.store Sample.host Sample.room1)
    as (l & Hrun & _ & _ & _ & Htotal);
    [reflexivity | by left | reflexivity | reflexivity | ].
  exists l. exact (conj Hrun Htotal).
Defined.

(** ** joinRoom *)

Lemma room_of_None roomId d :
  room_of roomId d = None <->
  forall r, r ∈ rooms d -> TriviaRooms.id r <> roomId.
Proof. apply limit1_select_None. Qed.

(** C8. For a signed-in caller joinRoom throws NOT_FOUND exactly when no
    room has the given id.  When one has, joinRoom succeeds whatever the
    room's accessCode, status and maxPlayers are: the caller gets a player
    row of that room, and a caller who was not in the room makes the
    room's player count grow by one, also past maxPlayers. *)
Theorem joinRoom_open input context fx d user :
  locals_user context = Some user ->
  let r := joinRoom input context fx d in
  (fst r = Throw NOT_FOUND <->
   forall room, room ∈ rooms d -> TriviaRooms.id room <> jr_roomId input)
  /\ (forall room, room ∈ rooms d -> TriviaRooms.id room = jr_roomId input ->
        exists player,
          fst r = Success player
          /\ player ∈ players (snd r)
          /\ TriviaPlayers.roomId player = jr_roomId input
          /\ TriviaPlayers.userId player = Some (user_id user)
          /\ (players_for (jr_roomId input) (Some (user_id user)) d = [] ->
              length (players_in (jr_roomId input) (snd r))
              = S (length (players_in (jr_roomId input) d))
              /\ forall n, TriviaRooms.maxPlayers room = Some n ->
                   (n <= Z.of_nat (length (players_in (jr_roomId input) d)))%Z ->
                   (n < Z.of_nat (length (players_in (jr_roomId input) (snd r))))%Z)).
Proof.
  intros Hu r. subst r. rewrite joinRoom_unfold, Hu.
  destruct (room_of (jr_roomId input) d) as [found|] eqn:Hroom.
  - split.
    + split.
      * destruct (limit1 _); discriminate.
      * intros Hno. apply limit1_select_Some in Hroom as [Hid Hin].
        by destruct (Hno found Hin).
    + intros room Hin Hid.
      destruct (limit1 _) as [existing|] eqn:Hex.
      * exists existing. pose proof Hex as Hhead.
        apply limit1_select_Some in Hex as [[Hrid Huid] Hpin].
        split_and!; try done. intros Hnil. by rewrite Hnil in Hhead.
      * exists (joining_player input user fx). cbn [fst snd].
        split_and!; try done.
        { cbn. apply elem_of_app. right. by left. }
        intros _.
        assert (length (players_in (jr_roomId input)
                  (set_players (players d ++ [joining_player input user fx]) d))
                = S (length (players_in (jr_roomId input) d))) as Hlen.
        { unfold players_in, select_where. cbn [players set_players].
          rewrite filter_app, length_app. cbn.
          rewrite decide_True by done. cbn. lia. }
        split; [done|]. intros n _ Hn. rewrite Hlen. lia.
  - split.
    + split; [|done]. intros _. by apply room_of_None.
    + intros room Hin Hid. by destruct (proj1 (room_of_None _ _) Hroom room Hin).
Qed.

(** A completed room that is full (maxPlayers 1, one player) still takes a
    second player. *)
Lemma joinRoom_open_witness :
  TriviaRooms.status Sample.room1 = Some "completed"
  /\ TriviaRooms.maxPlayers Sample.room1 = Some 1%Z
  /\ exists player,
       fst (joinRoom (mkJoinRoom "r1" None) (Sample.as_user Sample.bob)
              Sample.fx Sample.store) = Success player
       /\ length (players_in "r1"
            (snd (joinRoom (mkJoinRoom "r1" None) (Sample.as_user Sample.bob)
                    Sample.fx Sample.store))) = 2%nat.
Proof.
  split; [reflexivity|]. split; [reflexivity|].
  destruct (proj2 (joinRoom_open (mkJoinRoom "r1" None)
                     (Sample.as_user Sample.bob) Sample.fx Sample.store
                     Sample.bob eq_refl)
              Sample.room1)
    as (player & Hrun & _ & _ & _ & Hgrow); [by left | reflexivity | ].
  exists player. split; [exact Hrun|].
  exact (proj1 (Hgrow eq_refl)).
Defined.

(** C9. joinRoom keeps every (room, user) pair that had at most one player
    row at one row at most.  When the caller already has a row in the
    room, joinRoom returns that row and writes nothing, whatever
    displayName was given; when the caller has none, it appends exactly one
    row, with totalScore 0 and as displayName the given name, else the
    user's email, else Player.  A second joinRoom of the same caller in
    the same room returns the row of the first and writes nothing. *)
Theorem joinRoom_idempotent input context fx d :
  let rid := jr_roomId input in
  let r := joinRoom input context fx d in
  (forall rid' uid', (length (players_for rid' uid' d) <= 1)%nat ->
                     (length (players_for rid' uid' (snd r)) <= 1)%nat)
  /\ (forall user existing,
        locals_user context = Some user -> is_Some (room_of rid d) ->
        limit1 (players_for rid (Some (user_id user)) d) = Some existing ->
        r = (Success existing, d))
  /\ (forall user,
        locals_user context = Some user -> is_Some (room_of rid d) ->
        players_for rid (Some (user_id user)) d = [] ->
        exists p,
          r = (Success p, set_players (players d ++ [p]) d)
          /\ TriviaPlayers.roomId p = rid
          /\ TriviaPlayers.userId p = Some (user_id user)
          /\ TriviaPlayers.totalScore p = 0%Z
          /\ TriviaPlayers.displayName p
             = match jr_displayName input, user_email user with
               | Some given, _ => given
               | None, Some email => email
               | None, None => "Player"
               end)
  /\ (forall input2 fx2 p,
        jr_roomId input2 = rid -> fst r = Success p ->
        joinRoom input2 context fx2 (snd r) = (Success p, snd r)).
Proof.
  intros rid r. subst rid r. rewrite joinRoom_unfold. split_and!.
  - intros rid' uid' Hle. repeat case_match; try done. cbn [snd].
    unfold players_for in *. cbn [players set_players].
    change (players d ++ [?p]) with (insert_values p (players d)).
    rewrite select_insert_values, length_app.
    destruct (decide _) as [[Hrid Huid]|]; [|simpl; lia].
    cbn in Hrid, Huid. subst rid' uid'.
    match goal with
    | H : limit1 _ = None |- _ => apply head_None in H; by rewrite H
    end.
  - intros user existing Hu [room Hroom] Hex. by rewrite Hu, Hroom, Hex.
  - intros user Hu [room Hroom] Hnil. rewrite Hu, Hroom, Hnil. cbn.
    eexists. split; [done|]. split_and!; try done.
  - intros input2 fx2 p Hrid2.
    destruct (locals_user context) as [user|] eqn:Hu; [|discriminate].
    destruct (room_of (jr_roomId input) d) as [room|] eqn:Hroom; [|discriminate].
    destruct (limit1 (players_for _ _ d)) as [existing|] eqn:Hex;
      cbn [fst snd]; intros [= <-]; rewrite joinRoom_unfold, Hu, Hrid2.
    + by rewrite Hroom, Hex.
    + unfold room_of in *. cbn [rooms set_players]. rewrite Hroom.
      unfold players_for in *. cbn [players set_players].
      change (players d ++ [?p]) with (insert_values p (players d)).
      rewrite select_insert_values. apply head_None in Hex. rewrite Hex.
      cbn. by rewrite decide_True by done.
Qed.

Lemma joinRoom_idempotent_witness :
  joinRoom (mkJoinRoom "r1" (Some "Someone else"))
    (Sample.as_user Sample.alice) Sample.fx Sample.store
  = (Success Sample.player1, Sample.store).
Proof.
  apply (proj1 (proj2 (joinRoom_idempotent
                         (mkJoinRoom "r1" (Some "Someone else"))
                         (Sample.as_user Sample.alice) Sample.fx Sample.store))
           Sample.alice Sample.player1);
    [reflexivity | by eexists | reflexivity].
Defined.

Lemma spread_updates_spec input fx room :
  ur_name input <> Some EmptyString ->
  spread_updates (updateRoom_updates input fx) room = updated_room input fx room.
Proof.
  intros Hname. unfold spread_updates, updateRoom_updates, updated_room.
  destruct room, input as [id' name' code' status' maxp']. cbn in Hname |- *.
  destruct name' as [[|c s]|], code', status', maxp'; done.
Qed.

Lemma updateRoom_updates_length input fx :
  ur_name input <> Some EmptyString ->
  length (updateRoom_updates input fx) = 1%nat <-> nothing_provided input.
Proof.
  intros Hname. unfold updateRoom_updates, nothing_provided.
  destruct input as [id' name' code' status' maxp']. cbn in Hname |- *.
  destruct name' as [[|c s]|], code', status', maxp'; cbn;
    split; try done; try (intros (? & ? & ? & ?); done).
Qed.

(** C10. On the caller's room, updateRoom throws BAD_REQUEST and changes
    nothing when none of name, accessCode, status and maxPlayers is
    provided.  When one is, it writes the provided fields and updatedAt on
    that room and nothing else: the room's other fields, the other rooms
    and the other tables stay as they were. *)
Theorem updateRoom_frame_effect input context fx d user room :
  locals_user context = Some user ->
  owned_room_of (ur_id input) (user_id user) d = Some room ->
  (nothing_provided input ->
     updateRoom input context fx d = (Throw BAD_REQUEST, d))
  /\ (~ nothing_provided input ->
      updateRoom_schema input ->
      NoDup (TriviaRooms.id <$> rooms d) ->
      exists i,
        rooms d !! i = Some room
        /\ updateRoom input context fx d =
           (Success (updated_room input fx room),
            set_rooms (<[i := updated_room input fx room]> (rooms d)) d)).
Proof.
  intros Hu Hroom. unfold updateRoom, requireUser, loadOwnedRoom.
  rewrite Hu. unfold bind, query, write, ret, throw. cbv beta iota zeta.
  unfold owned_room_of in Hroom. rewrite Hroom. cbv beta iota.
  split.
  - intros (Hn & Hc & Hs & Hm). unfold updateRoom_updates.
    by rewrite Hn, Hc, Hs, Hm.
  - intros Hsome (_ & Hname & _) Hnd.
    rewrite decide_False by (by rewrite updateRoom_updates_length).
    rewrite spread_updates_spec by done.
    apply limit1_select_Some in Hroom as [_ Hin].
    apply list_elem_of_split in Hin as (l1 & l2 & Hl).
    exists (length l1). rewrite Hl in Hnd |- *. split.
    + by apply list_lookup_middle.
    + rewrite (update_where_key TriviaRooms.id) by done.
      rewrite spread_updates_spec by done.
      replace (length l1) with (length l1 + 0)%nat by lia.
      by rewrite insert_app_r.
Qed.

Lemma updateRoom_frame_effect_witness :
  updateRoom (mkUpdateRoom "r1" None None None None)
    (Sample.as_user Sample.host) Sample.fx Sample.store
  = (Throw BAD_REQUEST, Sample.store)
  /\ exists i,
       rooms Sample.store !! i = Some Sample.room1
       /\ updateRoom (mkUpdateRoom "r1" None None (Some InProgress) None)
            (Sample.as_user Sample.host) Sample.fx Sample.store
          = (Success (updated_room
                        (mkUpdateRoom "r1" None None (Some InProgress) None)
                        Sample.fx Sample.room1),
             set_rooms
               (<[i := updated_room
                         (mkUpdateRoom "r1" None None (Some InProgress) None)
                         Sample.fx Sample.room1]> (rooms Sample.store))
               Sample.store).
Proof.
  split.
  - apply (proj1 (updateRoom_frame_effect
                    (mkUpdateRoom "r1" None None None None)
                    (Sample.as_user Sample.host) Sample.fx Sample.store
                    Sample.host Sample.room1 eq_refl eq_refl)).
    repeat split.
  - apply (proj2 (updateRoom_frame_effect
                    (mkUpdateRoom "r1" None None (Some InProgress) None)
                    (Sample.as_user Sample.host) Sample.fx Sample.store
                    Sample.host Sample.room1 eq_refl eq_refl)).
    + intros (_ & _ & Hs & _). discriminate Hs.
    + split; [discriminate|]. split; [discriminate|]. intros n Hn.
      discriminate Hn.
    + apply NoDup_cons. split; [|apply NoDup_singleton].
      intros Hin. apply list_elem_of_singleton in Hin. discriminate.
Defined.

(** * Further properties of the handlers *)

(** ** requireUser *)

(** X1. Without a signed-in user every action throws UNAUTHORIZED and
    leaves the store as it found it. *)
Theorem anonymous_rejected req context fx d :
  locals_user context = None ->
  server req context fx d = (Some UNAUTHORIZED, d).
Proof.
  intros Hanon.
  destruct req; unfold server, finish, createRoom, updateRoom, listMyRooms,
    upsertQuestion, listRoomQuestions, joinRoom, recordAnswer, requireUser;
    by rewrite Hanon.
Qed.

Lemma anonymous_rejected_witness :
  server (JoinRoom (mkJoinRoom "r1" None)) (mkContext None) Sample.fx
    Sample.store
  = (Some UNAUTHORIZED, Sample.store).
Proof. apply (anonymous_rejected _ (mkContext None)). reflexivity. Defined.

(** ** createRoom *)

(** X2. For a signed-in caller createRoom succeeds and appends exactly the
    returned room, hosted by the caller, with status lobby unless one is
    given and with createdAt equal to updatedAt; the other tables stay.
    When the identifier drawn is not a room id yet, loadOwnedRoom then
    finds the new room for the caller and throws NOT_FOUND for anyone
    else. *)
Theorem createRoom_owned input context fx d user :
  locals_user context = Some user ->
  exists room,
    createRoom input context fx d
    = (Success room, mkDB (rooms d ++ [room]) (players d) (questions d) (answers d))
    /\ TriviaRooms.id room = randomUUID fx
    /\ TriviaRooms.hostUserId room = user_id user
    /\ TriviaRooms.name room = cr_name input
    /\ TriviaRooms.status room
       = Some (match cr_status input with
               | Some s => status_text s
               | None => "lobby"
               end)
    /\ TriviaRooms.createdAt room = TriviaRooms.updatedAt room
    /\ ((randomUUID fx ∉ (TriviaRooms.id <$> rooms d)) ->
        let d' := snd (createRoom input context fx d) in
        loadOwnedRoom (randomUUID fx) (user_id user) d' = (Success room, d')
        /\ forall other, other <> user_id user ->
             loadOwnedRoom (randomUUID fx) other d' = (Throw NOT_FOUND, d')).
Proof.
  intros Hu.
  set (room := TriviaRooms.mk (randomUUID fx) (user_id user) (cr_name input)
                 (cr_accessCode input)
                 (Some (status_text (default Lobby (cr_status input))))
                 (cr_maxPlayers input) (newDate fx) (newDate fx)).
  assert (createRoom input context fx d
          = (Success room,
             mkDB (rooms d ++ [room]) (players d) (questions d) (answers d)))
    as Hrun by (unfold createRoom, requireUser; by rewrite Hu).
  exists room. rewrite Hrun. split; [done|]. split_and!; try done.
  { subst room. cbn. by destruct (cr_status input). }
  intros Hfresh d'. subst d'. cbn [snd].
  assert (select_where
            (fun r => TriviaRooms.id r = randomUUID fx) (rooms d) = [])
    as Hnone.
  { apply head_None. change (head ?l) with (limit1 l).
    apply limit1_select_None. intros r Hr Hid. apply Hfresh.
    rewrite <- Hid. apply list_elem_of_fmap. by exists r. }
  assert (forall other,
            select_where
              (fun r => TriviaRooms.id r = randomUUID fx
                        /\ TriviaRooms.hostUserId r = other) (rooms d) = [])
    as Hnone'.
  { intros other. apply head_None. change (head ?l) with (limit1 l).
    apply limit1_select_None. intros r Hr [Hid _].
    exact (filter_nil_not_elem_of _ _ r Hnone Hid Hr). }
  unfold loadOwnedRoom, bind, query, ret, throw. cbn [rooms].
  change (rooms d ++ [room]) with (insert_values room (rooms d)).
  split.
  - rewrite select_insert_values, Hnone'. cbn [app].
    by rewrite decide_True by done.
  - intros other Hother. rewrite select_insert_values, Hnone'. cbn [app].
    rewrite decide_False; [done|]. intros [_ Hhost]. by apply Hother.
Qed.

Lemma createRoom_owned_witness :
  exists room,
    createRoom (mkCreateRoom "Quiz night" None None None)
      (Sample.as_user Sample.alice) Sample.fx Sample.store
    = (Success room,
       mkDB (rooms Sample.store ++ [room]) (players Sample.store)
         (questions Sample.store) (answers Sample.store))
    /\ TriviaRooms.status room = Some "lobby".
Proof.
  destruct (createRoom_owned (mkCreateRoom "Quiz night" None None None)
              (Sample.as_user Sample.alice) Sample.fx Sample.store
              Sample.alice eq_refl)
    as (room & Hrun & _ & _ & _ & Hstatus & _).
  exists room. exact (conj Hrun Hstatus).
Defined.

(** ** listMyRooms *)

Lemma listMyRooms_unfold input context d user :
  locals_user context = Some user ->
  listMyRooms input context d =
  (Success
     (mkListing
        (take (Z.to_nat (lm_pageSize input))
           (drop (Z.to_nat ((lm_page input - 1) * lm_pageSize input))
              (orderBy_asc TriviaRooms.createdAt
                 (hosted_rooms (user_id user) d))))
        (Z.of_nat (length (hosted_rooms (user_id user) d)))),
   d).
Proof. intros Hu. unfold listMyRooms, requireUser. by rewrite Hu. Qed.

(** X3. For a signed-in caller listMyRooms succeeds and writes nothing.
    Whatever the page, total is the number of rooms the caller hosts; the
    items are rooms the caller hosts, in ascending order of createdAt, at
    most pageSize of them, and none when the page starts at or past the
    total. *)
Theorem listMyRooms_page input context d user :
  locals_user context = Some user ->
  exists l,
    listMyRooms input context d = (Success l, d)
    /\ total l = Z.of_nat (length (hosted_rooms (user_id user) d))
    /\ (forall r, r ∈ items l ->
          r ∈ rooms d /\ TriviaRooms.hostUserId r = user_id user)
    /\ StronglySorted
         (fun a b => (TriviaRooms.createdAt a <= TriviaRooms.createdAt b)%Z)
         (items l)
    /\ (length (items l) <= Z.to_nat (lm_pageSize input))%nat
    /\ ((total l <= (lm_page input - 1) * lm_pageSize input)%Z ->
        items l = []).
Proof.
  intros Hu. rewrite (listMyRooms_unfold _ _ _ _ Hu).
  eexists. split; [done|]. cbn [items total].
  set (sorted := orderBy_asc TriviaRooms.createdAt _).
  split_and!.
  - done.
  - intros r Hr. apply subseteq_take, subseteq_drop in Hr.
    unfold sorted, orderBy_asc in Hr. rewrite merge_sort_Permutation in Hr.
    unfold hosted_rooms, select_where in Hr.
    apply list_elem_of_filter in Hr. tauto.
  - assert (StronglySorted (key_le TriviaRooms.createdAt) sorted) as Hs
      by apply (StronglySorted_merge_sort (key_le TriviaRooms.createdAt)).
    rewrite <- (take_drop (Z.to_nat ((lm_page input - 1) * lm_pageSize input))
                  sorted) in Hs.
    apply StronglySorted_app_1_r in Hs.
    rewrite <- (take_drop (Z.to_nat (lm_pageSize input)) (drop _ sorted)) in Hs.
    by apply StronglySorted_app_1_l in Hs.
  - rewrite length_take. lia.
  - intros Hpast. rewrite drop_ge; [by rewrite take_nil|].
    unfold sorted, orderBy_asc. rewrite merge_sort_Permutation. lia.
Qed.

Lemma listMyRooms_page_witness :
  exists l,
    listMyRooms (mkListMyRooms 2 20) (Sample.as_user Sample.host) Sample.store
    = (Success l, Sample.store)
    /\ total l = 1%Z /\ items l = [].
Proof.
  destruct (listMyRooms_page (mkListMyRooms 2 20) (Sample.as_user Sample.host)
              Sample.store Sample.host eq_refl)
    as (l & Hrun & Htotal & _ & _ & _ & Hpast).
  exists l. split; [exact Hrun|]. split; [exact Htotal|].
  apply Hpast. rewrite Htotal. vm_compute. discriminate.
Defined.

(** X4. Paging through listMyRooms with a fixed pageSize: the pages 1 to n,
    one after the other, are the first n * pageSize rooms of the caller in
    createdAt order; once n * pageSize reaches the total, they hold each
    room the caller hosts exactly once. *)
Theorem listMyRooms_pages context d user (pageSize : Z) (n : nat) :
  locals_user context = Some user ->
  (0 <= pageSize)%Z ->
  let pages :=
    concat ((fun i => page_items (Z.of_nat (S i)) pageSize context d)
            <$> seq 0 n) in
  pages = take (n * Z.to_nat pageSize)
            (orderBy_asc TriviaRooms.createdAt (hosted_rooms (user_id user) d))
  /\ ((length (hosted_rooms (user_id user) d) <= n * Z.to_nat pageSize)%nat ->
      pages ≡ₚ hosted_rooms (user_id user) d).
Proof.
  intros Hu Hk pages.
  assert (pages = take (n * Z.to_nat pageSize)
            (orderBy_asc TriviaRooms.createdAt (hosted_rooms (user_id user) d)))
    as Hpages.
  { subst pages. induction n as [|n IH]; [done|].
    rewrite seq_S, fmap_app, concat_app, IH. cbn [fmap list_fmap concat].
    rewrite app_nil_r. unfold page_items.
    rewrite (listMyRooms_unfold _ _ _ _ Hu). cbn [fst items lm_page lm_pageSize].
    replace (Z.to_nat ((Z.of_nat (S (0 + n)) - 1) * pageSize))
      with (n * Z.to_nat pageSize)%nat by lia.
    rewrite take_take_drop. f_equal. lia. }
  split; [done|]. intros Hall. rewrite Hpages, take_ge.
  - apply merge_sort_Permutation.
  - unfold orderBy_asc. by rewrite merge_sort_Permutation.
Qed.

Lemma listMyRooms_pages_witness :
  concat ((fun i => page_items (Z.of_nat (S i)) 1 (Sample.as_user Sample.host)
                      Sample.store) <$> seq 0 2)
  ≡ₚ hosted_rooms "host" Sample.store.
Proof.
  apply (proj2 (listMyRooms_pages (Sample.as_user Sample.host) Sample.store
                  Sample.host 1 2 eq_refl ltac:(lia))).
  vm_compute. lia.
Defined.

(** X5. After a createRoom by a signed-in caller, listMyRooms reports one
    room more for the caller, and the new room is among the caller's pages
    taken together; the count of every other user is as before. *)
Theorem createRoom_listed input context fx d user page :
  locals_user context = Some user ->
  let d' := snd (createRoom input context fx d) in
  (exists l l',
     listMyRooms page context d = (Success l, d)
     /\ listMyRooms page context d' = (Success l', d')
     /\ total l' = (total l + 1)%Z)
  /\ (exists room,
        fst (createRoom input context fx d) = Success room
        /\ room ∈ orderBy_asc TriviaRooms.createdAt
                    (hosted_rooms (user_id user) d'))
  /\ (forall other, other <> user_id user ->
        hosted_rooms other d' = hosted_rooms other d).
Proof.
  intros Hu d'.
  assert (exists room,
            createRoom input context fx d
            = (Success room, set_rooms (insert_values room (rooms d)) d)
            /\ TriviaRooms.hostUserId room = user_id user)
    as (room & Hrun & Hhost)
    by (unfold createRoom, requireUser; rewrite Hu; by eexists).
  subst d'. rewrite Hrun. cbn [fst snd].
  assert (forall other,
            hosted_rooms other (set_rooms (insert_values room (rooms d)) d)
            = hosted_rooms other d
              ++ if decide (other = user_id user) then [room] else [])
    as Hhosted.
  { intros other. unfold hosted_rooms. cbn [rooms set_rooms].
    rewrite select_insert_values. rewrite Hhost.
    destruct (decide (user_id user = other)) as [<-|Hne].
    - by rewrite decide_True.
    - rewrite decide_False; [done|]. congruence. }
  split_and!.
  - rewrite !(listMyRooms_unfold _ _ _ _ Hu). eexists _, _.
    split; [done|]. split; [done|]. cbn [total].
    rewrite Hhosted, decide_True by done. rewrite length_app. cbn. lia.
  - exists room. split; [done|]. unfold orderBy_asc.
    rewrite merge_sort_Permutation, Hhosted, decide_True by done.
    apply elem_of_app. right. by left.
  - intros other Hother. rewrite Hhosted, decide_False by done.
    apply app_nil_r.
Qed.

Lemma createRoom_listed_witness :
  exists l l',
    listMyRooms (mkListMyRooms 1 20) (Sample.as_user Sample.alice) Sample.store
    = (Success l, Sample.store)
    /\ listMyRooms (mkListMyRooms 1 20) (Sample.as_user Sample.alice)
         (snd (createRoom (mkCreateRoom "Quiz night" None None None)
                 (Sample.as_user Sample.alice) Sample.fx Sample.store))
       = (Success l',
          snd (createRoom (mkCreateRoom "Quiz night" None None None)
                 (Sample.as_user Sample.alice) Sample.fx Sample.store))
    /\ total l' = (total l + 1)%Z.
Proof.
  exact (proj1 (createRoom_listed (mkCreateRoom "Quiz night" None None None)
                  (Sample.as_user Sample.alice) Sample.fx Sample.store
                  Sample.alice (mkListMyRooms 1 20) eq_refl)).
Defined.

(** ** upsertQuestion *)

Lemma upsertQuestion_unfold input context fx d :
  upsertQuestion input context fx d =
  match locals_user context with
  | None => (Throw UNAUTHORIZED, d)
  | Some user =>
    match owned_room_of (uq_roomId input) (user_id user) d with
    | None => (Throw NOT_FOUND, d)
    | Some _ =>
      if truthy (uq_id input) then
        match question_of (default EmptyString (uq_id input)) d with
        | None => (Throw NOT_FOUND, d)
        | Some existing =>
          if decide (TriviaQuestions.roomId existing <> uq_roomId input)
          then (Throw FORBIDDEN, d)
          else (Success (spread_questionPayload input existing),
                set_questions
                  (update_where
                     (fun q => TriviaQuestions.id q
                               = default EmptyString (uq_id input))
                     (spread_questionPayload input) (questions d)) d)
        end
      else (Success (new_question input fx),
            set_questions (questions d ++ [new_question input fx]) d)
    end
  end.
Proof.
  unfold upsertQuestion, requireUser, loadOwnedRoom, owned_room_of, question_of.
  destruct (locals_user context) as [user|]; [|done].
  unfold bind, query, write, ret, throw. cbv beta iota.
  destruct (limit1 (select_where _ (rooms d))); [|done]. cbv beta iota.
  destruct (truthy (uq_id input)); [|done]. cbv beta iota zeta.
  destruct (limit1 (select_where _ (questions d))); [|done].
  by destruct (decide _).
Qed.

(** X6. For the host of the room, upsertQuestion with no id, or with the
    empty string as id, appends exactly one question, the one it returns:
    it carries the drawn identifier, the given room and payload, and the
    clock as createdAt; no other row of any table changes. *)
Theorem upsertQuestion_inserts input context fx d user room :
  locals_user context = Some user ->
  owned_room_of (uq_roomId input) (user_id user) d = Some room ->
  uq_id input = None \/ uq_id input = Some EmptyString ->
  upsertQuestion input context fx d
  = (Success (new_question input fx),
     mkDB (rooms d) (players d) (questions d ++ [new_question input fx])
       (answers d))
  /\ TriviaQuestions.id (new_question input fx) = randomUUID fx
  /\ TriviaQuestions.roomId (new_question input fx) = uq_roomId input
  /\ TriviaQuestions.orderIndex (new_question input fx) = uq_orderIndex input
  /\ TriviaQuestions.correctOptionKey (new_question input fx)
     = (key_text <$> uq_correctOptionKey input)
  /\ TriviaQuestions.createdAt (new_question input fx) = newDate fx.
Proof.
  intros Hu Hroom Hid. rewrite upsertQuestion_unfold, Hu, Hroom.
  by destruct Hid as [-> | ->].
Qed.

Lemma upsertQuestion_inserts_witness :
  upsertQuestion
    (mkUpsertQuestion "r1" (Some EmptyString) 1%Z "5 + 5 ?" None None None None
       (Some KeyC) None)
    (Sample.as_user Sample.host) Sample.fx Sample.store
  = (Success (TriviaQuestions.mk "fresh" "r1" 1%Z "5 + 5 ?" None None None None
                (Some "C") None 200%Z),
     mkDB (rooms Sample.store) (players Sample.store)
       (questions Sample.store
        ++ [TriviaQuestions.mk "fresh" "r1" 1%Z "5 + 5 ?" None None None None
              (Some "C") None 200%Z])
       (answers Sample.store)).
Proof.
  apply (proj1 (upsertQuestion_inserts
                  (mkUpsertQuestion "r1" (Some EmptyString) 1%Z "5 + 5 ?"
                     None None None None (Some KeyC) None)
                  (Sample.as_user Sample.host) Sample.fx Sample.store
                  Sample.host Sample.room1 eq_refl eq_refl
                  (or_intror eq_refl))).
Defined.

(** X7. For the host of the room, upsertQuestion with a non-empty id throws
    NOT_FOUND when no question has that id and FORBIDDEN when the question
    of that id belongs to another room; whatever upsertQuestion throws, it
    leaves the store as it found it. *)
Theorem upsertQuestion_rejections :
  (forall input context fx d user room id,
     locals_user context = Some user ->
     owned_room_of (uq_roomId input) (user_id user) d = Some room ->
     uq_id input = Some id -> id <> EmptyString ->
     (question_of id d = None ->
      upsertQuestion input context fx d = (Throw NOT_FOUND, d))
     /\ (forall existing,
           question_of id d = Some existing ->
           TriviaQuestions.roomId existing <> uq_roomId input ->
           upsertQuestion input context fx d = (Throw FORBIDDEN, d)))
  /\ (forall input context fx d e d',
        upsertQuestion input context fx d = (Throw e, d') -> d' = d).
Proof.
  split.
  - intros input context fx d user room id Hu Hroom Hid Hne.
    rewrite upsertQuestion_unfold, Hu, Hroom, Hid.
    assert (truthy (Some id) = true) as -> by (by destruct id).
    change (default EmptyString (Some id)) with id. split.
    + by intros ->.
    + intros existing -> Hother. by rewrite decide_True.
  - intros input context fx d e d'. rewrite upsertQuestion_unfold.
    repeat case_match; congruence.
Qed.

Lemma upsertQuestion_rejections_witness :
  upsertQuestion
    (mkUpsertQuestion "r1" (Some "q7") 1%Z "5 + 5 ?" None None None None None None)
    (Sample.as_user Sample.host) Sample.fx Sample.store
  = (Throw NOT_FOUND, Sample.store)
  /\ upsertQuestion
       (mkUpsertQuestion "r1" (Some "q2") 1%Z "5 + 5 ?" None None None None None
          None)
       (Sample.as_user Sample.host) Sample.fx Sample.store
     = (Throw FORBIDDEN, Sample.store).
Proof.
  split.
  - apply (proj1 (proj1 upsertQuestion_rejections
             (mkUpsertQuestion "r1" (Some "q7") 1%Z "5 + 5 ?" None None None
                None None None)
             (Sample.as_user Sample.host) Sample.fx Sample.store
             Sample.host Sample.room1 "q7" eq_refl eq_refl eq_refl
             ltac:(discriminate))).
    reflexivity.
  - apply (proj2 (proj1 upsertQuestion_rejections
             (mkUpsertQuestion "r1" (Some "q2") 1%Z "5 + 5 ?" None None None
                None None None)
             (Sample.as_user Sample.host) Sample.fx Sample.store
             Sample.host Sample.room1 "q2" eq_refl eq_refl eq_refl
             ltac:(discriminate)) Sample.question2);
      [reflexivity | discriminate].
Defined.

(** X8. For the host of the room, upsertQuestion with the id of a question
    of that room rewrites that one row with the payload and returns it:
    the row keeps its position, id, room and createdAt, and no other row
    of any table changes, so answers recorded against the old correct key
    keep their award.  The id is the primary key of TriviaQuestions. *)
Theorem upsertQuestion_updates input context fx d user room id existing :
  locals_user context = Some user ->
  owned_room_of (uq_roomId input) (user_id user) d = Some room ->
  uq_id input = Some id -> id <> EmptyString ->
  question_of id d = Some existing ->
  TriviaQuestions.roomId existing = uq_roomId input ->
  NoDup (TriviaQuestions.id <$> questions d) ->
  let question := spread_questionPayload input existing in
  exists i,
    questions d !! i = Some existing
    /\ upsertQuestion input context fx d
       = (Success question,
          mkDB (rooms d) (players d) (<[i := question]> (questions d))
            (answers d))
    /\ TriviaQuestions.id question = TriviaQuestions.id existing
    /\ TriviaQuestions.roomId question = TriviaQuestions.roomId existing
    /\ TriviaQuestions.createdAt question = TriviaQuestions.createdAt existing
    /\ TriviaQuestions.correctOptionKey question
       = (key_text <$> uq_correctOptionKey input).
Proof.
  intros Hu Hroom Hid Hne Hq Hsame Hnd question.
  rewrite upsertQuestion_unfold, Hu, Hroom, Hid.
  assert (truthy (Some id) = true) as -> by (by destruct id).
  change (default EmptyString (Some id)) with id. rewrite Hq.
  rewrite decide_False by (by intros []).
  apply limit1_select_Some in Hq as [Hid' Hin].
  apply list_elem_of_split in Hin as (l1 & l2 & Hl).
  exists (length l1). rewrite Hl in Hnd |- *. split_and!; try done.
  - by apply list_lookup_middle.
  - rewrite <- Hid'. rewrite (update_where_key TriviaQuestions.id) by done.
    unfold set_questions. cbn [rooms players answers]. do 2 f_equal.
    replace (length l1) with (length l1 + 0)%nat by lia.
    by rewrite insert_app_r.
Qed.

Lemma upsertQuestion_updates_witness :
  exists i,
    questions Sample.store !! i = Some Sample.question1
    /\ fst (upsertQuestion
              (mkUpsertQuestion "r1" (Some "q1") 3%Z "2 + 2 = ?" None None None
                 None (Some KeyA) None)
              (Sample.as_user Sample.host) Sample.fx Sample.store)
       = Success (TriviaQuestions.mk "q1" "r1" 3%Z "2 + 2 = ?" None None None
                    None (Some "A") None 110%Z).
Proof.
  destruct (upsertQuestion_updates
              (mkUpsertQuestion "r1" (Some "q1") 3%Z "2 + 2 = ?" None None None
                 None (Some KeyA) None)
              (Sample.as_user Sample.host) Sample.fx Sample.store
              Sample.host Sample.room1 "q1" Sample.question1
              eq_refl eq_refl eq_refl ltac:(discriminate) eq_refl eq_refl)
    as (i & Hi & Hrun & _).
  - apply NoDup_cons. split; [|apply NoDup_singleton].
    intros Hin. apply list_elem_of_singleton in Hin. discriminate.
  - exists i. split; [exact Hi|]. by rewrite Hrun.
Defined.

Lemma listRoomQuestions_unfold roomId context d user room :
  locals_user context = Some user ->
  owned_room_of roomId (user_id user) d = Some room ->
  listRoomQuestions (mkListRoomQuestions roomId) context d
  = (Success
       (mkListing
          (orderBy_asc TriviaQuestions.orderIndex
             (select_where (fun q => TriviaQuestions.roomId q = roomId)
                (questions d)))
          (Z.of_nat (length
             (orderBy_asc TriviaQuestions.orderIndex
                (select_where (fun q => TriviaQuestions.roomId q = roomId)
                   (questions d)))))),
     d).
Proof.
  intros Hu Hroom. unfold listRoomQuestions, requireUser, loadOwnedRoom.
  rewrite Hu. unfold bind, query, ret, throw. cbv beta iota.
  unfold owned_room_of in Hroom. cbn [lq_roomId]. by rewrite Hroom.
Qed.

Lemma listed_questions_spec roomId context d user room :
  locals_user context = Some user ->
  owned_room_of roomId (user_id user) d = Some room ->
  listed_questions roomId context d
  ≡ₚ select_where (fun q => TriviaQuestions.roomId q = roomId) (questions d).
Proof.
  intros Hu Hroom. unfold listed_questions.
  rewrite (listRoomQuestions_unfold _ _ _ _ _ Hu Hroom). cbn [fst items].
  apply merge_sort_Permutation.
Qed.

(** X9. A question that upsertQuestion returns is in what listRoomQuestions
    then lists for its room to the same caller.  An insert makes that
    listing one longer; an update, with id the primary key of
    TriviaQuestions, leaves its length as it was. *)
Theorem upsertQuestion_then_listed input context fx d question d' :
  upsertQuestion input context fx d = (Success question, d') ->
  let listed := listed_questions (uq_roomId input) context in
  question ∈ listed d'
  /\ (truthy (uq_id input) = false ->
      length (listed d') = S (length (listed d)))
  /\ (truthy (uq_id input) = true ->
      NoDup (TriviaQuestions.id <$> questions d) ->
      length (listed d') = length (listed d)).
Proof.
  rewrite upsertQuestion_unfold.
  destruct (locals_user context) as [user|] eqn:Hu; [|discriminate].
  destruct (owned_room_of _ _ d) as [room|] eqn:Hroom; [|discriminate].
  intros Hrun listed. subst listed.
  assert (owned_room_of (uq_roomId input) (user_id user) d' = Some room)
    as Hroom'.
  { revert Hrun. repeat case_match; try discriminate; by intros [= _ <-]. }
  rewrite (listed_questions_spec _ _ _ _ _ Hu Hroom').
  rewrite (listed_questions_spec _ _ _ _ _ Hu Hroom).
  destruct (truthy (uq_id input)) eqn:Hid.
  - destruct (question_of _ d) as [existing|] eqn:Hq; [|discriminate].
    destruct (decide _) as [|Hsame]; [discriminate|].
    apply dec_stable in Hsame. injection Hrun as <- <-.
    cbn [questions set_questions].
    apply limit1_select_Some in Hq as [Hid' Hin].
    split_and!; [|done|].
    + unfold select_where. apply list_elem_of_filter. split; [done|].
      apply elem_of_update_where. exists existing. split; [done|].
      by rewrite decide_True.
    + intros _ Hnd. apply list_elem_of_split in Hin as (l1 & l2 & Hl).
      rewrite Hl in Hnd |- *. rewrite <- Hid'.
      rewrite (update_where_key TriviaQuestions.id) by done.
      unfold select_where. rewrite !filter_app, !filter_cons.
      rewrite !decide_True by done. by rewrite !length_app.
  - injection Hrun as <- <-. cbn [questions set_questions].
    change (questions d ++ [?q]) with (insert_values q (questions d)).
    rewrite select_insert_values, decide_True by done.
    split_and!; [|by rewrite length_app, Nat.add_comm|done].
    apply elem_of_app. right. by left.
Qed.

Lemma upsertQuestion_then_listed_witness :
  TriviaQuestions.mk "fresh" "r1" 1%Z "5 + 5 ?" None None None None None None
    200%Z
  ∈ listed_questions "r1" (Sample.as_user Sample.host)
      (snd (upsertQuestion
              (mkUpsertQuestion "r1" None 1%Z "5 + 5 ?" None None None None
                 None None)
              (Sample.as_user Sample.host) Sample.fx Sample.store)).
Proof.
  apply (proj1 (upsertQuestion_then_listed
                  (mkUpsertQuestion "r1" None 1%Z "5 + 5 ?" None None None
                     None None None)
                  (Sample.as_user Sample.host) Sample.fx Sample.store
                  _ _ eq_refl)).
Defined.

(** ** recordAnswer: missing rows, what it leaves alone, re-answering *)

(** X10. For a signed-in caller recordAnswer throws NOT_FOUND exactly when
    the question is missing, or the player is missing, or both exist in
    the same room and no room row has that room's id. *)
Theorem recordAnswer_not_found input context fx d user :
  locals_user context = Some user ->
  fst (recordAnswer input context fx d) = Throw NOT_FOUND <->
  question_of (ra_questionId input) d = None
  \/ player_of (ra_playerId input) d = None
  \/ exists question player,
       question_of (ra_questionId input) d = Some question
       /\ player_of (ra_playerId input) d = Some player
       /\ TriviaPlayers.roomId player = TriviaQuestions.roomId question
       /\ room_of (TriviaQuestions.roomId question) d = None.
Proof.
  intros Hu. unfold recordAnswer, requireUser, question_of, player_of, room_of.
  rewrite Hu. run_action.
  destruct (limit1 (select_where _ (questions d))) as [question|];
    [|split; auto].
  destruct (limit1 (select_where _ (players d))) as [player|];
    [|split; auto].
  destruct (decide _) as [Hdiff|Hsame].
  { split; [discriminate|].
    intros [|[|(q & p & [= <-] & [= <-] & Heq & _)]]; done. }
  apply dec_stable in Hsame.
  destruct (limit1 (select_where _ (rooms d))) as [room|] eqn:Hroom.
  - split.
    + destruct (negb _ && negb _); [discriminate|].
      destruct (limit1 (select_where _ (answers d))); discriminate.
    + intros [|[|(q & p & [= <-] & [= <-] & _ & Hnone)]]; try done.
      congruence.
  - split; [|done]. intros _. right. right. by exists question, player.
Qed.

Lemma recordAnswer_not_found_witness :
  fst (recordAnswer (mkRecordAnswer "q9" "p1" None)
         (Sample.as_user Sample.alice) Sample.fx Sample.store)
  = Throw NOT_FOUND.
Proof.
  apply (recordAnswer_not_found (mkRecordAnswer "q9" "p1" None)
           (Sample.as_user Sample.alice) Sample.fx Sample.store
           Sample.alice eq_refl).
  left. reflexivity.
Defined.

Lemma NoDup_key_eq {R K} (key : R -> K) (l : list R) (x y : R) :
  NoDup (key <$> l) -> x ∈ l -> y ∈ l -> key x = key y -> x = y.
Proof.
  induction l as [|a l IH]; intros Hnd Hx Hy Hxy.
  { by apply not_elem_of_nil in Hx. }
  rewrite fmap_cons in Hnd. apply NoDup_cons in Hnd as [Ha Hnd].
  apply elem_of_cons in Hx as [->|Hx]; apply elem_of_cons in Hy as [->|Hy].
  - done.
  - destruct Ha. rewrite Hxy. apply list_elem_of_fmap. by exists y.
  - destruct Ha. rewrite <- Hxy. apply list_elem_of_fmap. by exists x.
  - by apply IH.
Qed.

(** X11. Whatever its outcome, recordAnswer leaves the rooms and the
    questions as they were; every player row keeps its position and all
    its columns but totalScore, and rows of players with another id
    change nothing; with id the primary key of TriviaAnswers, the answer
    rows of every other (question, player) pair stay untouched in place. *)
Theorem recordAnswer_touches_only input context fx d :
  let d' := snd (recordAnswer input context fx d) in
  rooms d' = rooms d /\ questions d' = questions d
  /\ (player_key <$> players d') = (player_key <$> players d)
  /\ (forall i p, players d !! i = Some p ->
        TriviaPlayers.id p <> ra_playerId input -> players d' !! i = Some p)
  /\ (NoDup (TriviaAnswers.id <$> answers d) ->
      forall i a, answers d !! i = Some a ->
        ~ (TriviaAnswers.questionId a = ra_questionId input
           /\ TriviaAnswers.playerId a = ra_playerId input) ->
        answers d' !! i = Some a).
Proof.
  intros d'. subst d'.
  destruct (recordAnswer_cases input context fx d)
    as [[e ->]|(user & question & player & room
                & _ & _ & Hp & _ & _ & _ & ->)]; [done|].
  cbn [snd rooms players questions answers].
  apply limit1_select_Some in Hp as [Hpid _].
  split_and!; try done.
  - unfold recorded_players. by apply fmap_update_where.
  - intros i p Hi Hne. unfold recorded_players, update_where.
    rewrite list_lookup_fmap, Hi. cbn. rewrite decide_False; [done|].
    congruence.
  - intros Hnd i a Hi Hpair. unfold recorded_answers.
    destruct (answer_of _ _ d) as [existing|] eqn:Hex; cbn zeta.
    + unfold update_where. rewrite list_lookup_fmap, Hi. cbn.
      rewrite decide_False; [done|]. intros Hid. apply Hpair.
      apply limit1_select_Some in Hex as [Hpair' Hin].
      assert (a = existing) as ->; [|done].
      eapply (NoDup_key_eq TriviaAnswers.id); try done.
      by eapply list_elem_of_lookup_2.
    + unfold insert_values. by apply lookup_app_l_Some.
Qed.

Lemma recordAnswer_touches_only_witness :
  rooms (snd (recordAnswer (mkRecordAnswer "q1" "p1" (Some KeyA))
                (Sample.as_user Sample.alice) Sample.fx Sample.store))
  = rooms Sample.store.
Proof.
  exact (proj1 (recordAnswer_touches_only
                  (mkRecordAnswer "q1" "p1" (Some KeyA))
                  (Sample.as_user Sample.alice) Sample.fx Sample.store)).
Defined.

(** With scores added as integers: the answer recordAnswer returns is the
    row then stored for the
    pair.  Answering the same question again for the same player, with
    whatever option, makes only the last answer count: the player's
    totalScore ends at its value before the first answer, minus the award
    the pair had then, plus the award of the last answer. *)
Theorem recordAnswer_last_wins input1 input2 context fx1 fx2 d
    user question player room :
  locals_user context = Some user ->
  question_of (ra_questionId input1) d = Some question ->
  player_of (ra_playerId input1) d = Some player ->
  TriviaPlayers.roomId player = TriviaQuestions.roomId question ->
  room_of (TriviaQuestions.roomId question) d = Some room ->
  may_record user room player ->
  ra_questionId input2 = ra_questionId input1 ->
  ra_playerId input2 = ra_playerId input1 ->
  exists answer1 d1 answer2 d2,
    recordAnswer input1 context fx1 d = (Success answer1, d1)
    /\ answer_of (ra_questionId input1) (ra_playerId input1) d1 = Some answer1
    /\ recordAnswer input2 context fx2 d1 = (Success answer2, d2)
    /\ answer_of (ra_questionId input1) (ra_playerId input1) d2 = Some answer2
    /\ TriviaAnswers.id answer2 = TriviaAnswers.id answer1
    /\ TriviaPlayers.totalScore <$> player_of (ra_playerId input1) d2
       = Some (TriviaPlayers.totalScore player
               - from_option TriviaAnswers.scoreAwarded 0
                   (answer_of (ra_questionId input1) (ra_playerId input1) d)
               + spec_newScore (ra_selectedOptionKey input2)
                   (TriviaQuestions.correctOptionKey question))%Z.
Proof.
  intros Hu Hq Hp Hsame Hr Hmay Hq2 Hp2.
  rewrite (recordAnswer_run _ _ fx1 _ _ _ _ _ Hu Hq Hp Hsame Hr Hmay).
  set (a1 := recorded_answer input1 fx1 question _).
  set (d1 := mkDB _ _ _ _).
  assert (answer_of (ra_questionId input1) (ra_playerId input1) d1 = Some a1)
    as Ha1 by apply answer_of_recorded.
  pose proof (player_of_recorded input1 fx1 question player d (rooms d)
                (questions d) (recorded_answers input1 fx1 question d) Hp)
    as Hp1.
  fold a1 d1 in Hp1.
  set (player1 := with_totalScore player _) in Hp1.
  assert (recordAnswer input2 context fx2 d1
          = (Success (recorded_answer input2 fx2 question
                        (answer_of (ra_questionId input2)
                           (ra_playerId input2) d1)),
             mkDB (rooms d1) (recorded_players input2 fx2 question player1 d1)
               (questions d1) (recorded_answers input2 fx2 question d1)))
    as Hrun2.
  { apply (recordAnswer_run input2 context fx2 d1 user question player1 room);
      rewrite ?Hq2, ?Hp2; done. }
  eexists _, _, _, _. split; [done|]. split; [done|]. split; [exact Hrun2|].
  rewrite <- Hq2, <- Hp2. split; [apply answer_of_recorded|].
  rewrite Hq2, Hp2, Ha1. split; [done|].
  rewrite <- Hp2 in Hp1.
  rewrite <- Hp2.
  rewrite (player_of_recorded input2 fx2 question player1 d1 _ _ _ Hp1).
  rewrite Hq2, Hp2, Ha1. cbn [fmap option_fmap option_map].
  f_equal. unfold spec_newScore. rewrite <- answer_isCorrect_spec.
  unfold recorded_answer, a1. cbn. lia.
Qed.

Lemma recordAnswer_last_wins_witness :
  exists answer1 d1 answer2 d2,
    recordAnswer (mkRecordAnswer "q1" "p1" (Some KeyA))
      (Sample.as_user Sample.alice) Sample.fx Sample.store
    = (Success answer1, d1)
    /\ recordAnswer (mkRecordAnswer "q1" "p1" (Some KeyB))
         (Sample.as_user Sample.alice) (mkEffects "other" 300%Z) d1
       = (Success answer2, d2)
    /\ TriviaPlayers.totalScore <$> player_of "p1" d2 = Some 10%Z.
Proof.
  destruct (recordAnswer_last_wins (mkRecordAnswer "q1" "p1" (Some KeyA))
              (mkRecordAnswer "q1" "p1" (Some KeyB))
              (Sample.as_user Sample.alice) Sample.fx (mkEffects "other" 300%Z)
              Sample.store Sample.alice Sample.question1 Sample.player1
              Sample.room1 eq_refl eq_refl eq_refl eq_refl eq_refl
              (or_intror eq_refl) eq_refl eq_refl)
    as (answer1 & d1 & answer2 & d2 & H1 & _ & H2 & _ & _ & Htotal).
  exists answer1, d1, answer2, d2. exact (conj H1 (conj H2 Htotal)).
Defined.

(** ** joinRoom, then recordAnswer *)

(** Under a primary key, the select by key finds the row that carries it. *)
Lemma limit1_select_key {R} (key : R -> string) (l : list R) (x : R) :
  NoDup (key <$> l) -> x ∈ l ->
  limit1 (select_where (fun r => key r = key x) l) = Some x.
Proof.
  intros Hnd Hx.
  destruct (limit1 (select_where (fun r => key r = key x) l)) as [y|] eqn:Hy.
  - apply limit1_select_Some in Hy as [Hkey Hin].
    f_equal. by eapply (NoDup_key_eq key).
  - eapply limit1_select_None in Hy; [|done]. by destruct Hy.
Qed.

(** X13. The player row joinRoom returns lets its caller answer the
    questions of that room: recordAnswer by the same caller for that
    player and a question of the room succeeds, with the award the
    selected option earns.  The id is the primary key of TriviaPlayers and
    the identifier drawn by joinRoom is not a player id yet. *)
Theorem joined_player_can_answer jinput rinput context fx fx2 d
    player d1 question :
  joinRoom jinput context fx d = (Success player, d1) ->
  NoDup (TriviaPlayers.id <$> players d) ->
  randomUUID fx ∉ (TriviaPlayers.id <$> players d) ->
  question_of (ra_questionId rinput) d = Some question ->
  TriviaQuestions.roomId question = jr_roomId jinput ->
  ra_playerId rinput = TriviaPlayers.id player ->
  exists answer d2,
    recordAnswer rinput context fx2 d1 = (Success answer, d2)
    /\ TriviaAnswers.playerId answer = TriviaPlayers.id player
    /\ TriviaAnswers.scoreAwarded answer
       = spec_newScore (ra_selectedOptionKey rinput)
           (TriviaQuestions.correctOptionKey question).
Proof.
  rewrite joinRoom_unfold.
  destruct (locals_user context) as [user|] eqn:Hu; [|discriminate].
  destruct (room_of (jr_roomId jinput) d) as [room|] eqn:Hroom; [|discriminate].
  intros Hjoin Hnd Hfresh Hq Hqroom Hpid.
  assert (rooms d1 = rooms d /\ questions d1 = questions d
          /\ TriviaPlayers.roomId player = jr_roomId jinput
          /\ TriviaPlayers.userId player = Some (user_id user)
          /\ player_of (TriviaPlayers.id player) d1 = Some player)
    as (Hrooms & Hquestions & Hproom & Hpuser & Hplayer).
  { destruct (limit1 (players_for _ _ d)) as [existing|] eqn:Hex;
      injection Hjoin as <- <-.
    - apply limit1_select_Some in Hex as [[Hrid Huid] Hin].
      split_and!; try done. by apply limit1_select_key.
    - split_and!; try done. unfold player_of. cbn [players set_players].
      change (players d ++ [?p]) with (insert_values p (players d)).
      rewrite select_insert_values.
      assert (select_where
                (fun p => TriviaPlayers.id p = randomUUID fx) (players d) = [])
        as Hnone.
      { apply head_None. change (head ?l) with (limit1 l).
        apply limit1_select_None. intros p Hp Hid. apply Hfresh.
        rewrite <- Hid. apply list_elem_of_fmap. by exists p. }
      cbn [TriviaPlayers.id joining_player]. rewrite Hnone. cbn.
      by rewrite decide_True. }
  eexists _, _. split.
  - apply (recordAnswer_run rinput context fx2 d1 user question player room).
    + done.
    + unfold question_of. by rewrite Hquestions.
    + by rewrite Hpid.
    + by rewrite Hproom.
    + unfold room_of. by rewrite Hrooms, Hqroom.
    + by right.
  - cbn. split; [done|]. unfold spec_newScore.
    by rewrite answer_isCorrect_spec.
Qed.

Lemma joined_player_can_answer_witness :
  exists answer d2,
    recordAnswer (mkRecordAnswer "q1" "fresh" (Some KeyB))
      (Sample.as_user Sample.bob) (mkEffects "other" 300%Z)
      (snd (joinRoom (mkJoinRoom "r1" None) (Sample.as_user Sample.bob)
              Sample.fx Sample.store))
    = (Success answer, d2)
    /\ TriviaAnswers.scoreAwarded answer = 10%Z.
Proof.
  destruct (joined_player_can_answer (mkJoinRoom "r1" None)
              (mkRecordAnswer "q1" "fresh" (Some KeyB))
              (Sample.as_user Sample.bob) Sample.fx (mkEffects "other" 300%Z)
              Sample.store _ _ Sample.question1 eq_refl)
    as (answer & d2 & Hrun & _ & Hscore);
    [apply NoDup_singleton
    | intros Hin; apply list_elem_of_singleton in Hin; discriminate
    | reflexivity | reflexivity | reflexivity | ].
  exists answer, d2. exact (conj Hrun Hscore).
Defined.

(** ** updateRoom, again *)

Lemma spread_updates_keeps input fx r :
  let r' := spread_updates (updateRoom_updates input fx) r in
  TriviaRooms.id r' = TriviaRooms.id r
  /\ TriviaRooms.hostUserId r' = TriviaRooms.hostUserId r
  /\ TriviaRooms.createdAt r' = TriviaRooms.createdAt r
  /\ spread_updates (updateRoom_updates input fx) r' = r'.
Proof.
  destruct r, input as [id' name' code' status' maxp'].
  unfold spread_updates, updateRoom_updates. cbn.
  destruct name' as [[|c s]|], code', status', maxp'; done.
Qed.

(** X14. The room updateRoom returns is the row loadOwnedRoom then finds
    for the caller, and running the same updateRoom again at the same
    clock returns the same room and changes nothing more. *)
Theorem updateRoom_again input context fx d room d1 :
  updateRoom input context fx d = (Success room, d1) ->
  (forall user, locals_user context = Some user ->
     loadOwnedRoom (ur_id input) (user_id user) d1 = (Success room, d1))
  /\ updateRoom input context fx d1 = (Success room, d1).
Proof.
  unfold updateRoom at 1. unfold requireUser, loadOwnedRoom.
  destruct (locals_user context) as [user|] eqn:Hu; [|discriminate].
  unfold bind, query, write, ret, throw. cbv beta iota zeta.
  destruct (limit1 (select_where _ (rooms d))) as [room0|] eqn:Hroom;
    [|discriminate]. cbv beta iota.
  destruct (decide _) as [|Hlen]; [discriminate|]. intros [= <- <-].
  destruct (spread_updates_keeps input fx room0) as (Hid & Hhost & _ & Hidem).
  cbv zeta in Hid, Hhost, Hidem.
  assert (limit1 (select_where
            (fun r => TriviaRooms.id r = ur_id input
                      /\ TriviaRooms.hostUserId r = user_id user)
            (rooms (set_rooms
               (update_where
                  (fun r => TriviaRooms.id r = TriviaRooms.id room0)
                  (spread_updates (updateRoom_updates input fx)) (rooms d)) d)))
          = Some (spread_updates (updateRoom_updates input fx) room0))
    as Hfound.
  { cbn [rooms set_rooms]. rewrite select_update_where.
    - rewrite limit1_update_where, Hroom. cbn. by rewrite decide_True.
    - intros r. destruct (spread_updates_keeps input fx r) as (-> & -> & _).
      done. }
  split.
  - intros user' [= <-]. unfold bind, query, ret, throw. cbv beta iota.
    by rewrite Hfound.
  - unfold updateRoom, requireUser, loadOwnedRoom. rewrite Hu.
    unfold bind, query, write, ret, throw. cbv beta iota zeta.
    rewrite Hfound. cbv beta iota. rewrite decide_False by done.
    rewrite Hidem, Hid. f_equal. unfold set_rooms. cbn [rooms players questions answers].
    f_equal. apply update_where_id. intros r Hr Hrid.
    apply elem_of_update_where in Hr as (r0 & _ & ->).
    destruct (decide _) as [|Hne].
    + by destruct (spread_updates_keeps input fx r0) as (_ & _ & _ & ->).
    + done.
Qed.

Lemma updateRoom_again_witness :
  updateRoom (mkUpdateRoom "r1" None None (Some InProgress) None)
    (Sample.as_user Sample.host) Sample.fx
    (snd (updateRoom (mkUpdateRoom "r1" None None (Some InProgress) None)
            (Sample.as_user Sample.host) Sample.fx Sample.store))
  = updateRoom (mkUpdateRoom "r1" None None (Some InProgress) None)
      (Sample.as_user Sample.host) Sample.fx Sample.store.
Proof.
  exact (proj2 (updateRoom_again
                  (mkUpdateRoom "r1" None None (Some InProgress) None)
                  (Sample.as_user Sample.host) Sample.fx Sample.store
                  _ _ eq_refl)).
Defined.

(** ** The shape of one step *)

Lemma spread_questionPayload_key input q :
  question_key (spread_questionPayload input q) = question_key q.
Proof. done. Qed.

Lemma server_shape req context fx d :
  step_shape fx d (snd (server req context fx d)).
Proof.
  assert (step_shape fx d d) as Hsame.
  { left. split_and!; try done. intros a Ha. by left. }
  destruct req as [input|input|input|input|input|input|input];
    unfold server, finish; cbn [snd].
  - (* createRoom *)
    unfold createRoom, requireUser.
    destruct (locals_user context) as [user|]; [|done].
    right. left. eexists. by split_and!.
  - (* updateRoom *)
    unfold updateRoom, requireUser, loadOwnedRoom.
    destruct (locals_user context) as [user|]; [|done].
    unfold bind, query, write, ret, throw. cbv beta iota zeta.
    destruct (limit1 (select_where _ (rooms d))) as [room|]; [|done].
    cbv beta iota. destruct (decide _); [done|]. cbn [snd].
    left. cbn [rooms players questions answers set_rooms].
    split_and!; try done.
    + apply fmap_update_where. intros r. unfold room_key.
      by destruct (spread_updates_keeps input fx r) as (-> & -> & -> & _).
    + intros a Ha. by left.
  - by rewrite listMyRooms_frame.
  - (* upsertQuestion *)
    rewrite upsertQuestion_unfold.
    destruct (locals_user context) as [user|]; [|done].
    destruct (owned_room_of _ _ d) as [room|] eqn:Hroom; [|done].
    apply limit1_select_Some in Hroom as [[Hrid _] Hrin].
    destruct (truthy (uq_id input)).
    + destruct (question_of _ d) as [existing|] eqn:Hq; [|done].
      destruct (decide _) as [|Hsameroom]; [done|].
      apply dec_stable in Hsameroom. cbn [snd].
      left. cbn [rooms players questions answers set_questions].
      split_and!; try done.
      * by apply fmap_update_where.
      * intros Hnd. apply limit1_select_Some in Hq as [Hid Hin].
        apply list_elem_of_split in Hin as (l1 & l2 & Hl).
        rewrite Hl in Hnd |- *. rewrite <- Hid.
        rewrite (update_where_key TriviaQuestions.id) by done.
        rewrite !fmap_app, !fmap_cons. do 2 f_equal.
        unfold question_ref. cbn. by rewrite Hsameroom.
      * intros a Ha. by left.
    + cbn [snd]. right. right. right. left. eexists. split_and!; try done.
      cbn. rewrite <- Hrid. apply list_elem_of_fmap. by exists room.
  - by rewrite listRoomQuestions_frame.
  - (* joinRoom *)
    rewrite joinRoom_unfold.
    destruct (locals_user context) as [user|]; [|done].
    destruct (room_of _ d) as [room|] eqn:Hroom; [|done].
    apply limit1_select_Some in Hroom as [Hrid Hrin].
    destruct (limit1 (players_for _ _ d)) eqn:Hex; [done|].
    cbn [snd]. right. right. left. eexists. split_and!; try done.
    + cbn. rewrite <- Hrid. apply list_elem_of_fmap. by exists room.
    + by apply head_None.
  - (* recordAnswer *)
    destruct (recordAnswer_cases input context fx d)
      as [[e ->]|(user & question & player & room
                  & _ & Hq & Hp & Hsameroom & _ & _ & ->)]; [done|].
    cbn [snd].
    assert ((player_key <$> recorded_players input fx question player d)
            = (player_key <$> players d)) as Hplayers
      by (by apply fmap_update_where).
    unfold recorded_answers.
    destruct (answer_of _ _ d) as [existing|] eqn:Hex; cbn zeta.
    + left. cbn [rooms players questions answers]. split_and!; try done.
      * by apply fmap_update_where.
      * intros a Ha. apply elem_of_update_where in Ha as (a0 & Ha0 & ->).
        destruct (decide _); [right|by left].
        unfold award_ok, recorded_answer. cbn.
        by destruct (answer_isCorrect _ _).
    + right. right. right. right. eexists.
      cbn [rooms players questions answers]. unfold insert_values.
      split_and!; try done.
      * apply limit1_select_Some in Hq as [Hqid Hqin].
        apply limit1_select_Some in Hp as [Hpid Hpin].
        by exists question, player.
      * by apply head_None.
Qed.

Section key_columns.
Context {R K : Type} (key : R -> K).

Lemma fmap_via {B} (g : K -> B) (h : R -> B) (l l' : list R) :
  (forall r, h r = g (key r)) ->
  (key <$> l') = (key <$> l) -> (h <$> l') = (h <$> l).
Proof.
  intros Hh Hkey.
  assert (forall t : list R, (h <$> t) = (g <$> (key <$> t))) as Hvia.
  { intros t. rewrite <- list_fmap_compose. apply list_fmap_ext.
    intros i r _. apply Hh. }
  by rewrite !Hvia, Hkey.
Qed.

Lemma fmap_eq_elem (l l' : list R) (x' : R) :
  (key <$> l') = (key <$> l) -> x' ∈ l' ->
  exists x, x ∈ l /\ key x = key x'.
Proof.
  intros Hkey Hx'.
  assert (key x' ∈ (key <$> l)) as Hin
    by (rewrite <- Hkey; apply list_elem_of_fmap; by exists x').
  apply list_elem_of_fmap in Hin as (x & Hx & Hxin). by exists x.
Qed.

Lemma filter_length_via (P : R -> Prop) (Pk : K -> Prop)
    `{!forall r, Decision (P r)} `{!forall k, Decision (Pk k)}
    (l l' : list R) :
  (forall r, P r <-> Pk (key r)) ->
  (key <$> l') = (key <$> l) ->
  length (filter P l') = length (filter P l).
Proof.
  intros HP Hkey.
  assert (forall t : list R,
            length (filter P t) = length (filter Pk (key <$> t))) as Hvia.
  { induction t as [|r t IH]; [done|].
    rewrite fmap_cons, !filter_cons.
    destruct (decide (P r)) as [Hr|Hr].
    - rewrite decide_True by (by apply HP). cbn. by rewrite IH.
    - rewrite decide_False by (by rewrite <- HP). done. }
  by rewrite !Hvia, Hkey.
Qed.
End key_columns.

Lemma NoDup_snoc_fresh {R} (key : R -> string) (l : list R) (x : R) :
  NoDup (key <$> l) -> (key x ∉ (key <$> l)) -> NoDup (key <$> (l ++ [x])).
Proof.
  intros Hnd Hfresh. rewrite fmap_app. apply NoDup_app.
  split_and!; [done| |apply NoDup_singleton].
  intros k Hk Hk'. apply list_elem_of_singleton in Hk'. by subst k.
Qed.

(** X15. No action deletes a row or rewrites the columns that identify
    one: after any action each table still starts with its old rows, with
    the same id and the same identifying columns, and all tables together
    hold at most one row more. *)
Theorem server_never_deletes req context fx d :
  let d' := snd (server req context fx d) in
  (room_key <$> rooms d) `prefix_of` (room_key <$> rooms d')
  /\ (player_key <$> players d) `prefix_of` (player_key <$> players d')
  /\ (question_key <$> questions d) `prefix_of` (question_key <$> questions d')
  /\ (answer_key <$> answers d) `prefix_of` (answer_key <$> answers d')
  /\ (length (rooms d') + length (players d') + length (questions d')
      + length (answers d')
      <= S (length (rooms d) + length (players d) + length (questions d)
            + length (answers d)))%nat.
Proof.
  intros d'. subst d'.
  assert (forall {A B} (f : A -> B) (l l' : list A),
            (f <$> l') = (f <$> l) -> length l' = length l) as Hlen.
  { intros A B f l l' Heq. rewrite <- (length_fmap f l'), Heq.
    apply length_fmap. }
  destruct (server_shape req context fx d)
    as [(Hr & Hp & Hq & _ & Ha & _)
       |[(r & -> & _ & -> & -> & ->)
        |[(p & -> & _ & _ & _ & _ & _ & -> & -> & ->)
         |[(q & -> & _ & _ & -> & -> & ->)
          |(a & -> & _ & _ & _ & _ & -> & -> & Hp)]]]].
  - rewrite Hr, Hp, Hq, Ha.
    rewrite (Hlen _ _ _ _ _ Hr), (Hlen _ _ _ _ _ Hp), (Hlen _ _ _ _ _ Hq),
      (Hlen _ _ _ _ _ Ha).
    split_and!; try done. lia.
  - rewrite fmap_app, length_app. split_and!; try done; [|cbn; lia].
    by apply prefix_app_r.
  - rewrite fmap_app, length_app. split_and!; try done; [|cbn; lia].
    by apply prefix_app_r.
  - rewrite fmap_app, length_app. split_and!; try done; [|cbn; lia].
    by apply prefix_app_r.
  - rewrite fmap_app, length_app, Hp, (Hlen _ _ _ _ _ Hp).
    split_and!; try done; [|cbn; lia]. by apply prefix_app_r.
Qed.

(** ** Invariants of the stores the server produces *)

Ltac shape_cases H :=
  destruct H
    as [(Hkr & Hkp & Hkq & Hkqr & Hka & Hold)
       |[(r & Hrs & Hid & Hps & Hqs & Has)
        |[(p & Hps & Hid & Hroom & Huser & Hnone & Hzero & Hrs & Hqs & Has)
         |[(q & Hqs & Hid & Hroom & Hrs & Hps & Has)
          |(a & Has & Hid & Hlink & Hnone & Hnew & Hrs & Hqs & Hkp)]]]].

Lemma shape_keys fx d d' :
  step_shape fx d d' -> fresh_all fx d -> keys_unique d -> keys_unique d'.
Proof.
  intros Hshape (Hfr & Hfp & Hfq & Hfa) (Hr & Hp & Hq & Ha).
  unfold keys_unique. shape_cases Hshape.
  - rewrite (fmap_via room_key (fun k => k.1.1) TriviaRooms.id _ _
               (fun _ => eq_refl) Hkr).
    rewrite (fmap_via player_key (fun k => k.1.1.1.1.1) TriviaPlayers.id _ _
               (fun _ => eq_refl) Hkp).
    rewrite (fmap_via question_key (fun k => k.1) TriviaQuestions.id _ _
               (fun _ => eq_refl) Hkq).
    by rewrite (fmap_via answer_key (fun k => k.1.1) TriviaAnswers.id _ _
                  (fun _ => eq_refl) Hka).
  - rewrite Hrs, Hps, Hqs, Has. split_and!; try done.
    apply NoDup_snoc_fresh; [done|by rewrite Hid].
  - rewrite Hrs, Hps, Hqs, Has. split_and!; try done.
    apply NoDup_snoc_fresh; [done|by rewrite Hid].
  - rewrite Hrs, Hps, Hqs, Has. split_and!; try done.
    apply NoDup_snoc_fresh; [done|by rewrite Hid].
  - rewrite Hrs, Hqs, Has. split_and!; try done.
    + by rewrite (fmap_via player_key (fun k => k.1.1.1.1.1) TriviaPlayers.id
                    _ _ (fun _ => eq_refl) Hkp).
    + apply NoDup_snoc_fresh; [done|by rewrite Hid].
Qed.

Lemma shape_refs fx d d' :
  step_shape fx d d' -> keys_unique d -> refs_ok d -> refs_ok d'.
Proof.
  intros Hshape (_ & _ & Hnq & _) (Hp & Hq & Ha).
  assert (forall ps, (player_key <$> ps) = (player_key <$> players d) ->
            forall a, a ∈ answers d ->
              exists q p,
                q ∈ questions d /\ p ∈ ps
                /\ TriviaQuestions.id q = TriviaAnswers.questionId a
                /\ TriviaPlayers.id p = TriviaAnswers.playerId a
                /\ TriviaPlayers.roomId p = TriviaQuestions.roomId q) as Ha'.
  { intros ps Hkp a Hin.
    destruct (Ha a Hin) as (q & p & Hqin & Hpin & ? & ? & ?).
    destruct (fmap_eq_elem player_key ps (players d) p (eq_sym Hkp) Hpin)
      as (p' & Hp'in & [= Hid Hrid _ _ _ _]).
    exists q, p'. split_and!; congruence. }
  unfold refs_ok. shape_cases Hshape.
  - specialize (Hkqr Hnq).
    rewrite (fmap_via room_key (fun k => k.1.1) TriviaRooms.id _ _
               (fun _ => eq_refl) Hkr).
    split_and!.
    + intros p' Hin.
      destruct (fmap_eq_elem player_key _ _ p' Hkp Hin)
        as (p & Hpin & [= _ Hroom _ _ _ _]).
      rewrite <- Hroom. by apply Hp.
    + intros q' Hin.
      destruct (fmap_eq_elem question_ref _ _ q' Hkqr Hin)
        as (q & Hqin & [= _ Hroom]).
      rewrite <- Hroom. by apply Hq.
    + intros a' Hin.
      destruct (fmap_eq_elem answer_key _ _ a' Hka Hin)
        as (a & Hain & [= _ Hqid Hpid]).
      destruct (Ha' (players d') Hkp a Hain)
        as (q & p & Hqin & Hpin & Hq1 & Hp1 & Hsame).
      destruct (fmap_eq_elem question_ref _ _ q (eq_sym Hkqr) Hqin)
        as (q' & Hq'in & [= Hq'id Hq'room]).
      exists q', p. split_and!; congruence.
  - rewrite Hrs, Hps, Hqs, Has. split_and!; try done;
      intros x Hx; rewrite fmap_app; apply elem_of_app; left; auto.
  - rewrite Hrs, Hps, Hqs, Has. split_and!; try done.
    + intros p' Hin. apply elem_of_app in Hin as [Hin|Hin]; [by apply Hp|].
      by apply list_elem_of_singleton in Hin as ->.
    + intros a Hin. destruct (Ha a Hin) as (q & p0 & ? & ? & ? & ? & ?).
      exists q, p0. split_and!; try done. apply elem_of_app. by left.
  - rewrite Hrs, Hps, Hqs, Has. split_and!; try done.
    + intros q' Hin. apply elem_of_app in Hin as [Hin|Hin]; [by apply Hq|].
      by apply list_elem_of_singleton in Hin as ->.
    + intros a Hin. destruct (Ha a Hin) as (q0 & p & ? & ? & ? & ? & ?).
      exists q0, p. split_and!; try done. apply elem_of_app. by left.
  - rewrite Hrs, Hqs, Has. split_and!; try done.
    + intros p' Hin.
      destruct (fmap_eq_elem player_key _ _ p' Hkp Hin)
        as (p & Hpin & [= _ Hroom _ _ _ _]).
      rewrite <- Hroom. by apply Hp.
    + intros a' Hin. apply elem_of_app in Hin as [Hin|Hin].
      * by apply Ha'.
      * apply list_elem_of_singleton in Hin as ->.
        destruct Hlink as (q & p & Hqin & Hpin & ? & ? & ?).
        destruct (fmap_eq_elem player_key _ _ p (eq_sym Hkp) Hpin)
          as (p' & Hp'in & [= Hid' Hrid _ _ _ _]).
        exists q, p'. split_and!; congruence.
Qed.

Lemma shape_pairs fx d d' :
  step_shape fx d d' -> pairs_unique d -> pairs_unique d'.
Proof.
  intros Hshape (Ha & Hp & Hg).
  assert (forall ps, (player_key <$> ps) = (player_key <$> players d) ->
            (forall r u,
               (length (select_where
                  (fun p => TriviaPlayers.roomId p = r
                            /\ TriviaPlayers.userId p = u) ps) <= 1)%nat)
            /\ (forall p, p ∈ ps -> is_Some (TriviaPlayers.userId p)))
    as Hplayers.
  { intros ps Hkp. split.
    - intros r u. unfold select_where.
      rewrite (filter_length_via player_key _
                 (fun k => k.1.1.1.1.2 = r /\ k.1.1.1.2 = u) _ _
                 (fun _ => reflexivity _) Hkp).
      apply Hp.
    - intros p' Hin.
      destruct (fmap_eq_elem player_key _ _ p' Hkp Hin)
        as (p & Hpin & [= _ _ Huser _ _ _]).
      rewrite <- Huser. by apply Hg. }
  unfold pairs_unique. shape_cases Hshape;
    unfold answers_for, players_for in *.
  - destruct (Hplayers _ Hkp) as [Hp' Hg']. split_and!; try done.
    intros q p. unfold select_where.
    rewrite (filter_length_via answer_key _
               (fun k => k.1.2 = q /\ k.2 = p) _ _
               (fun _ => reflexivity _) Hka).
    apply Ha.
  - by rewrite Hps, Has.
  - rewrite Hps, Has. split_and!; try done.
    + intros r u.
      change (players d ++ [p]) with (insert_values p (players d)).
      rewrite select_insert_values, length_app.
      destruct (decide _) as [[<- <-]|]; cbn.
      * by rewrite Hnone.
      * specialize (Hp r u). lia.
    + intros p' Hin.
      apply elem_of_app in Hin as [Hin|Hin]; [by apply Hg|].
      by apply list_elem_of_singleton in Hin as ->.
  - by rewrite Hps, Has.
  - destruct (Hplayers _ Hkp) as [Hp' Hg']. rewrite Has.
    split_and!; try done. intros q p.
    change (answers d ++ [a]) with (insert_values a (answers d)).
    rewrite select_insert_values, length_app.
    destruct (decide _) as [[<- <-]|]; cbn.
    + by rewrite Hnone.
    + specialize (Ha q p). lia.
Qed.

Lemma shape_awards fx d d' :
  step_shape fx d d' -> awards_ok d -> awards_ok d'.
Proof.
  intros Hshape Haw. unfold awards_ok. shape_cases Hshape.
  - intros a Ha. destruct (Hold a Ha); auto.
  - by rewrite Has.
  - by rewrite Has.
  - by rewrite Has.
  - rewrite Has. intros a' Ha.
    apply elem_of_app in Ha as [Ha|Ha]; [by apply Haw|].
    by apply list_elem_of_singleton in Ha as ->.
Qed.

Lemma server_step_invariant req context fx d :
  store_invariant d -> fresh_all fx d ->
  store_invariant (snd (server req context fx d)).
Proof.
  intros (Hkeys & Hrefs & Hpairs & Hawards & Hscores) Hfresh.
  pose proof (server_shape req context fx d) as Hshape.
  split_and!.
  - by eapply shape_keys.
  - by eapply shape_refs.
  - by eapply shape_pairs.
  - by eapply shape_awards.
  - apply server_step_consistent; try done.
    + destruct Hkeys as (_ & _ & _ & Hna), Hrefs as (_ & _ & Hra).
      split; [done|]. intros a Ha.
      destruct (Hra a Ha) as (q & p & _ & Hp & _ & <- & _).
      apply list_elem_of_fmap. by exists p.
    + by destruct Hfresh as (_ & ? & _ & ?).
Qed.

Lemma produced_invariant d : produced d -> store_invariant d.
Proof.
  induction 1 as [|req context fx d _ IH Hfresh].
  - unfold store_invariant, keys_unique, refs_ok, pairs_unique, awards_ok,
      scores_consistent. cbn.
    split_and!; try apply NoDup_nil_2; try (intros; lia);
      intros x Hx; by apply not_elem_of_nil in Hx.
  - by apply server_step_invariant.
Qed.

Lemma run_store4_produced : produced Run.store4.
Proof.
  assert (forall (x : string) (l : list string),
            bool_decide (x ∉ l) = true -> x ∉ l) as Hdec
    by (intros x l; apply bool_decide_eq_true_1).
  apply produced_step; [apply produced_step; [apply produced_step;
    [apply produced_step; [apply produced_empty|]|]|]|];
    repeat split; apply Hdec; reflexivity.
Qed.

Example run_store4_value :
  Run.store4
  = mkDB
      [TriviaRooms.mk "r1" "host" "Friday Fun Quiz" None (Some "lobby") None
         100%Z 100%Z]
      [TriviaPlayers.mk "p1" "r1" (Some "alice") "Alice" 10%Z 120%Z None]
      [TriviaQuestions.mk "q1" "r1" 0%Z "2 + 2 ?" (Some "3") (Some "4") None
         None (Some "B") None 110%Z]
      [TriviaAnswers.mk "a1" "q1" "p1" (Some "B") true 130%Z 10%Z].
Proof. reflexivity. Qed.

(** X16. In every store the actions produce from the empty store, drawing
    an unused identifier at each step, the ids of each table are pairwise
    distinct: the primary keys of the schema hold. *)
Theorem produced_keys_unique d :
  produced d ->
  NoDup (TriviaRooms.id <$> rooms d)
  /\ NoDup (TriviaPlayers.id <$> players d)
  /\ NoDup (TriviaQuestions.id <$> questions d)
  /\ NoDup (TriviaAnswers.id <$> answers d).
Proof. intros Hd. by destruct (produced_invariant d Hd) as (? & _). Qed.

Lemma produced_keys_unique_witness :
  NoDup (TriviaAnswers.id <$> answers Run.store4).
Proof.
  exact (proj2 (proj2 (proj2
           (produced_keys_unique Run.store4 run_store4_produced)))).
Defined.

(** X17. In every store the actions produce, each player and each question
    belongs to a room that exists, and each answer row joins a question
    and a player that exist and sit in the same room. *)
Theorem produced_refs d :
  produced d ->
  (forall p, p ∈ players d ->
     exists r, r ∈ rooms d /\ TriviaRooms.id r = TriviaPlayers.roomId p)
  /\ (forall q, q ∈ questions d ->
        exists r, r ∈ rooms d /\ TriviaRooms.id r = TriviaQuestions.roomId q)
  /\ (forall a, a ∈ answers d ->
        exists q p,
          q ∈ questions d /\ p ∈ players d
          /\ TriviaQuestions.id q = TriviaAnswers.questionId a
          /\ TriviaPlayers.id p = TriviaAnswers.playerId a
          /\ TriviaPlayers.roomId p = TriviaQuestions.roomId q).
Proof.
  intros Hd. destruct (produced_invariant d Hd) as (_ & (Hp & Hq & Ha) & _).
  split_and!; [| |done].
  - intros p Hin. apply Hp, list_elem_of_fmap in Hin as (r & ? & ?).
    by exists r.
  - intros q Hin. apply Hq, list_elem_of_fmap in Hin as (r & ? & ?).
    by exists r.
Qed.

Lemma produced_refs_witness :
  exists q p,
    q ∈ questions Run.store4 /\ p ∈ players Run.store4
    /\ TriviaQuestions.id q = "q1" /\ TriviaPlayers.id p = "p1"
    /\ TriviaPlayers.roomId p = TriviaQuestions.roomId q.
Proof.
  apply (proj2 (proj2 (produced_refs Run.store4 run_store4_produced))
           (TriviaAnswers.mk "a1" "q1" "p1" (Some "B") true 130%Z 10%Z)).
  by left.
Defined.

(** X18. In every store the actions produce, a (question, player) pair has
    at most one answer row, a (room, user) pair has at most one player
    row, and every player row carries a user. *)
Theorem produced_pairs_unique d :
  produced d ->
  (forall q p, (length (answers_for q p d) <= 1)%nat)
  /\ (forall r u, (length (players_for r u d) <= 1)%nat)
  /\ (forall p, p ∈ players d -> TriviaPlayers.userId p <> None).
Proof.
  intros Hd. destruct (produced_invariant d Hd) as (_ & _ & (Ha & Hp & Hg) & _).
  split_and!; try done. intros p Hin Hnone.
  destruct (Hg p Hin) as [u Hu]. congruence.
Qed.

Lemma produced_pairs_unique_witness :
  (length (answers_for "q1" "p1" Run.store4) <= 1)%nat.
Proof.
  exact (proj1 (produced_pairs_unique Run.store4 run_store4_produced)
           "q1" "p1").
Defined.

Lemma sum_scores_awards (l : list TriviaAnswers.row) :
  (forall a, a ∈ l -> award_ok a) ->
  sum_scores l
  = (10 * Z.of_nat
            (length (filter (fun a => TriviaAnswers.isCorrect a = true) l)))%Z.
Proof.
  induction l as [|a l IH]; intros Haw; [done|].
  cbn [sum_scores foldr]. fold (sum_scores l).
  rewrite IH by (intros; apply Haw; by right).
  rewrite (Haw a) by (by left). rewrite filter_cons.
  destruct (TriviaAnswers.isCorrect a).
  - rewrite decide_True by done. cbn [length]. lia.
  - rewrite decide_False by done. lia.
Qed.

(** X19. In every store the actions produce, each answer row is worth ten
    points when it is marked correct and none otherwise, and a player's
    totalScore is ten times the number of the player's answer rows that
    are marked correct; so it is never negative. *)
Theorem produced_scores d :
  produced d ->
  (forall a, a ∈ answers d ->
     TriviaAnswers.scoreAwarded a
     = if TriviaAnswers.isCorrect a then 10%Z else 0%Z)
  /\ (forall p, p ∈ players d ->
        TriviaPlayers.totalScore p
        = (10 * Z.of_nat
                  (length
                     (filter (fun a => TriviaAnswers.isCorrect a = true)
                        (select_where
                           (fun a => TriviaAnswers.playerId a
                                     = TriviaPlayers.id p)
                           (answers d)))))%Z
        /\ (0 <= TriviaPlayers.totalScore p)%Z).
Proof.
  intros Hd.
  destruct (produced_invariant d Hd) as (_ & _ & _ & Haw & Hsc).
  split; [done|]. intros p Hin.
  assert (TriviaPlayers.totalScore p
          = (10 * Z.of_nat
                    (length
                       (filter (fun a => TriviaAnswers.isCorrect a = true)
                          (select_where
                             (fun a => TriviaAnswers.playerId a
                                       = TriviaPlayers.id p)
                             (answers d)))))%Z) as Htotal.
  { rewrite (Hsc p Hin). unfold score_of. apply sum_scores_awards.
    intros a Ha. apply Haw. unfold select_where in Ha.
    by apply list_elem_of_filter in Ha as [_ ?]. }
  split; [done|]. rewrite Htotal. lia.
Qed.

Lemma produced_scores_witness :
  (0 <= TriviaPlayers.totalScore
          (TriviaPlayers.mk "p1" "r1" (Some "alice") "Alice" 10%Z 120%Z None))%Z.
Proof.
  apply (proj2 (produced_scores Run.store4 run_store4_produced)
           (TriviaPlayers.mk "p1" "r1" (Some "alice") "Alice" 10%Z 120%Z None)).
  by left.
Defined.

(** X20. In every store the actions produce, the user of a player row can
    record that player's answer to any question of the player's room: the
    call succeeds, since the room of a stored question always exists. *)
Theorem produced_player_can_answer d context fx user player question selected :
  produced d ->
  locals_user context = Some user ->
  player ∈ players d -> question ∈ questions d ->
  TriviaPlayers.roomId player = TriviaQuestions.roomId question ->
  TriviaPlayers.userId player = Some (user_id user) ->
  exists answer d',
    recordAnswer
      (mkRecordAnswer (TriviaQuestions.id question) (TriviaPlayers.id player)
         selected) context fx d
    = (Success answer, d')
    /\ TriviaAnswers.scoreAwarded answer
       = spec_newScore selected (TriviaQuestions.correctOptionKey question).
Proof.
  intros Hd Hu Hp Hq Hsame Huser.
  destruct (produced_invariant d Hd)
    as ((Hnr & Hnp & Hnq & _) & (_ & Hqref & _) & _).
  pose proof (Hqref question Hq) as Hroom.
  apply list_elem_of_fmap in Hroom as (room & Hrid & Hrin).
  eexists _, _. split.
  - apply (recordAnswer_run _ context fx d user question player room).
    + done.
    + unfold question_of. cbn [ra_questionId]. by apply limit1_select_key.
    + unfold player_of. cbn [ra_playerId]. by apply limit1_select_key.
    + done.
    + unfold room_of. rewrite Hrid. by apply limit1_select_key.
    + by right.
  - cbn. unfold spec_newScore. by rewrite answer_isCorrect_spec.
Qed.

Lemma produced_player_can_answer_witness :
  exists answer d',
    recordAnswer (mkRecordAnswer "q1" "p1" (Some KeyA))
      (Sample.as_user Sample.alice) Sample.fx Run.store4
    = (Success answer, d')
    /\ TriviaAnswers.scoreAwarded answer = 0%Z.
Proof.
  apply (produced_player_can_answer Run.store4 (Sample.as_user Sample.alice)
           Sample.fx Sample.alice
           (TriviaPlayers.mk "p1" "r1" (Some "alice") "Alice" 10%Z 120%Z None)
           (TriviaQuestions.mk "q1" "r1" 0%Z "2 + 2 ?" (Some "3") (Some "4")
              None None (Some "B") None 110%Z)
           (Some KeyA) run_store4_produced eq_refl);
    [by left | by left | reflexivity | reflexivity].
Defined.

(** * recordAnswer in the arithmetic of the source *)

(** ** Where integers and JS numbers agree *)

Example binary64_round_past_safe :
  binary64_round 9007199254741001 = 9007199254741000%Z
  /\ binary64_round 9007199254741003 = 9007199254741004%Z
  /\ binary64_round (-9007199254741001) = (-9007199254741000)%Z
  /\ binary64_round 9007199254740993 = 9007199254740992%Z
  /\ binary64_round 18014398509481990 = 18014398509481992%Z.
Proof. by vm_compute. Qed.

Lemma binary64_round_safe z : safe_integer z -> binary64_round z = z.
Proof.
  unfold safe_integer, MAX_SAFE_INTEGER, binary64_round.
  change (2 ^ 53)%Z with 9007199254740992%Z. intros Hz. cbv zeta.
  destruct (Z.ltb_spec (Z.abs z) 9007199254740992); [done|lia].
Qed.

Lemma js_sub_add_safe t p n :
  safe_integer (t - p) -> safe_integer (t - p + n) ->
  js_add (js_sub t p) n = (t - p + n)%Z.
Proof.
  intros Hd Hs. unfold js_add, js_sub.
  rewrite (binary64_round_safe _ Hd). by apply binary64_round_safe.
Qed.

Lemma spec_newScore_cases selected correct :
  spec_newScore selected correct = 0%Z \/ spec_newScore selected correct = 10%Z.
Proof. unfold spec_newScore. destruct (spec_isCorrect _ _); auto. Qed.

(** On safe scores the handler with binary64 arithmetic is the handler
    with integer arithmetic. *)
Lemma recordAnswer_binary64_exact input context fx d :
  (forall question player,
     question_of (ra_questionId input) d = Some question ->
     player_of (ra_playerId input) d = Some player ->
     let previousScore :=
       from_option TriviaAnswers.scoreAwarded 0%Z
         (answer_of (ra_questionId input) (ra_playerId input) d) in
     safe_integer (TriviaPlayers.totalScore player - previousScore)
     /\ safe_integer (TriviaPlayers.totalScore player - previousScore
                      + spec_newScore (ra_selectedOptionKey input)
                          (TriviaQuestions.correctOptionKey question))) ->
  recordAnswer_binary64 input context fx d = recordAnswer input context fx d.
Proof.
  intros Hsafe. unfold recordAnswer_binary64, recordAnswer, requireUser.
  destruct (locals_user context) as [user|]; [|done].
  unfold bind, query, write, ret, throw. cbv beta iota zeta.
  destruct (limit1 (select_where _ (questions d))) as [question|] eqn:Hq;
    [|done]. cbv beta iota.
  destruct (limit1 (select_where _ (players d))) as [player|] eqn:Hp;
    [|done]. cbv beta iota.
  destruct (decide _); [done|]. cbv beta iota.
  destruct (limit1 (select_where _ (rooms d))); [|done]. cbv beta iota.
  destruct (negb _ && negb _); [done|]. cbv beta iota.
  destruct (Hsafe question player Hq Hp) as [Hdiff Hsum].
  cbv zeta in Hdiff, Hsum. unfold spec_newScore in Hsum.
  rewrite <- answer_isCorrect_spec in Hsum.
  unfold answer_of, answers_for in Hdiff, Hsum.
  by rewrite (js_sub_add_safe _ _ _ Hdiff Hsum).
Qed.

(** Whatever the scores, the two handlers differ in the totalScore they
    write and in nothing else. *)
Lemma recordAnswer_binary64_agrees input context fx d :
  let r64 := recordAnswer_binary64 input context fx d in
  let r := recordAnswer input context fx d in
  fst r64 = fst r
  /\ rooms (snd r64) = rooms (snd r)
  /\ questions (snd r64) = questions (snd r)
  /\ answers (snd r64) = answers (snd r)
  /\ (player_key <$> players (snd r64)) = (player_key <$> players (snd r)).
Proof.
  unfold recordAnswer_binary64, recordAnswer, requireUser.
  destruct (locals_user context) as [user|]; [|done].
  unfold bind, query, write, ret, throw. cbv beta iota zeta.
  destruct (limit1 (select_where _ (questions d))) as [question|]; [|done].
  cbv beta iota.
  destruct (limit1 (select_where _ (players d))) as [player|]; [|done].
  cbv beta iota. destruct (decide _); [done|]. cbv beta iota.
  destruct (limit1 (select_where _ (rooms d))); [|done]. cbv beta iota.
  destruct (negb _ && negb _); [done|]. cbv beta iota.
  destruct (limit1 (select_where _ (answers d))); cbn [fst snd];
    (split_and!; try done;
     cbn [players set_players set_answers];
     by rewrite !fmap_update_where).
Qed.

Lemma scores_safe_exact input context fx d :
  scores_safe input d ->
  recordAnswer_binary64 input context fx d = recordAnswer input context fx d.
Proof.
  intros Hsafe. apply recordAnswer_binary64_exact.
  intros question player _ Hp previousScore.
  destruct (Hsafe player Hp) as (_ & _ & Hdiff & Hfull).
  cbv zeta in Hdiff, Hfull. fold previousScore in Hdiff, Hfull.
  split; [done|]. unfold safe_integer in *.
  destruct (spec_newScore_cases (ra_selectedOptionKey input)
              (TriviaQuestions.correctOptionKey question)) as [-> | ->]; lia.
Qed.

Lemma server_binary64_exact req context fx d :
  request_scores_safe req d ->
  server_binary64 req context fx d = server req context fx d.
Proof.
  destruct req; try done. intros Hsafe. unfold server_binary64, server.
  by rewrite scores_safe_exact.
Qed.

Ltac safe_by_compute :=
  unfold safe_integer, MAX_SAFE_INTEGER; split; vm_compute; discriminate.

(** ** The score delta *)

(** C1, amended. In every store where the question and the player exist,
    sit in the same existing room, and the caller hosts the room or is the
    player's user, and where the player's totalScore, the previous award,
    their difference and the new total are safe integers, recordAnswer
    succeeds; afterwards the player's totalScore is its old value minus
    the score of the answer row the pair already had (0 without one) plus
    the new score, the new score being 10 when the selected and the
    correct key are both present and equal and 0 otherwise; the returned
    answer carries that score and the matching isCorrect flag. *)
Theorem recordAnswer_binary64_score_delta input context fx d
    user question player room :
  locals_user context = Some user ->
  question_of (ra_questionId input) d = Some question ->
  player_of (ra_playerId input) d = Some player ->
  TriviaPlayers.roomId player = TriviaQuestions.roomId question ->
  room_of (TriviaQuestions.roomId question) d = Some room ->
  may_record user room player ->
  let previousScore :=
    from_option TriviaAnswers.scoreAwarded 0%Z
      (answer_of (ra_questionId input) (ra_playerId input) d) in
  let newScore :=
    spec_newScore (ra_selectedOptionKey input)
      (TriviaQuestions.correctOptionKey question) in
  safe_integer (TriviaPlayers.totalScore player) ->
  safe_integer previousScore ->
  safe_integer (TriviaPlayers.totalScore player - previousScore) ->
  safe_integer (TriviaPlayers.totalScore player - previousScore + newScore) ->
  exists answer d',
    recordAnswer_binary64 input context fx d = (Success answer, d')
    /\ TriviaPlayers.totalScore <$> player_of (ra_playerId input) d'
       = Some (TriviaPlayers.totalScore player - previousScore + newScore)%Z
    /\ (forall p, p ∈ players d' -> TriviaPlayers.id p = ra_playerId input ->
          TriviaPlayers.totalScore p
          = (TriviaPlayers.totalScore player - previousScore + newScore)%Z)
    /\ TriviaAnswers.scoreAwarded answer = newScore
    /\ TriviaAnswers.isCorrect answer
       = spec_isCorrect (ra_selectedOptionKey input)
           (TriviaQuestions.correctOptionKey question).
Proof.
  intros Hu Hq Hp Hsame Hr Hmay previousScore newScore _ _ Hdiff Hsum.
  rewrite recordAnswer_binary64_exact.
  - by apply (recordAnswer_score_delta input context fx d user question
                player room).
  - intros question' player' Hq' Hp'. rewrite Hq in Hq'. rewrite Hp in Hp'.
    injection Hq' as <-. injection Hp' as <-. done.
Qed.

Lemma recordAnswer_binary64_score_delta_witness :
  exists answer d',
    recordAnswer_binary64 (mkRecordAnswer "q1" "p1" (Some KeyA))
      (Sample.as_user Sample.alice) Sample.fx Sample.store = (Success answer, d')
    /\ TriviaPlayers.totalScore <$> player_of "p1" d' = Some 0%Z
    /\ TriviaAnswers.scoreAwarded answer = 0%Z
    /\ TriviaAnswers.isCorrect answer = false.
Proof.
  destruct (recordAnswer_binary64_score_delta
              (mkRecordAnswer "q1" "p1" (Some KeyA))
              (Sample.as_user Sample.alice) Sample.fx Sample.store
              Sample.alice Sample.question1 Sample.player1 Sample.room1)
    as (answer & d' & Hrun & Htotal & _ & Hscore & Hflag);
    [reflexivity | reflexivity | reflexivity | reflexivity | reflexivity
    | right; reflexivity
    | safe_by_compute | safe_by_compute | safe_by_compute | safe_by_compute | ].
  exists answer, d'. exact (conj Hrun (conj Htotal (conj Hscore Hflag))).
Defined.

(** At a totalScore of 2^53 - 1, with no earlier answer and the right
    option selected, every precondition on the caller and the rows holds,
    yet the handler leaves 9007199254741000, not the old total plus 10. *)
Lemma recordAnswer_score_delta_counterexample :
  locals_user (Sample.as_user Sample.alice) = Some Sample.alice
  /\ question_of "q1" Edge.store = Some Sample.question1
  /\ player_of "p1" Edge.store = Some Edge.player1
  /\ TriviaPlayers.roomId Edge.player1 = TriviaQuestions.roomId Sample.question1
  /\ room_of "r1" Edge.store = Some Sample.room1
  /\ may_record Sample.alice Sample.room1 Edge.player1
  /\ answer_of "q1" "p1" Edge.store = None
  /\ spec_newScore (Some KeyB)
       (TriviaQuestions.correctOptionKey Sample.question1) = 10%Z
  /\ TriviaPlayers.totalScore <$>
       player_of "p1"
         (snd (recordAnswer_binary64 (mkRecordAnswer "q1" "p1" (Some KeyB))
                 (Sample.as_user Sample.alice) Sample.fx Edge.store))
     = Some 9007199254741000%Z
  /\ TriviaPlayers.totalScore <$>
       player_of "p1"
         (snd (recordAnswer_binary64 (mkRecordAnswer "q1" "p1" (Some KeyB))
                 (Sample.as_user Sample.alice) Sample.fx Edge.store))
     <> Some (TriviaPlayers.totalScore Edge.player1 - 0 + 10)%Z.
Proof.
  split_and!; try reflexivity.
  - right. reflexivity.
  - vm_compute. discriminate.
Qed.

(** ** Update in place or insert *)



(** ** The score invariant *)

Lemma sample_scores_safe :
  request_scores_safe (RecordAnswer (mkRecordAnswer "q1" "p1" (Some KeyA)))
    Sample.store.
Proof. intros player [= <-]. split_and!; safe_by_compute. Qed.

(** C3, amended. On stores that satisfy the key constraints the schema
    declares for TriviaAnswers, with an unused identifier from
    [crypto.randomUUID()], and where the scores recordAnswer reads and
    computes are safe integers, every action keeps each player's
    totalScore equal to the sum of scoreAwarded over the player's answer
    rows.  recordAnswer, when its checks pass, succeeds and writes the
    award on the pair's answer row and the player's new totalScore;
    joinRoom, for a signed-in caller and an existing room, succeeds and
    appends one player with totalScore 0 and no answer rows unless the
    caller is in the room already, and touches no answer; the other
    actions write neither table. *)
Theorem server_binary64_preserves_scores req context fx d :
  answers_keyed d -> fresh_uuid fx d -> scores_consistent d ->
  request_scores_safe req d ->
  let d' := snd (server_binary64 req context fx d) in
  answers_keyed d' /\ scores_consistent d'
  /\ match req with
     | RecordAnswer input =>
       forall user question player room,
         locals_user context = Some user ->
         question_of (ra_questionId input) d = Some question ->
         player_of (ra_playerId input) d = Some player ->
         TriviaPlayers.roomId player = TriviaQuestions.roomId question ->
         room_of (TriviaQuestions.roomId question) d = Some room ->
         may_record user room player ->
         let newScore :=
           spec_newScore (ra_selectedOptionKey input)
             (TriviaQuestions.correctOptionKey question) in
         fst (server_binary64 req context fx d) = None
         /\ TriviaAnswers.scoreAwarded <$>
              answer_of (ra_questionId input) (ra_playerId input) d'
            = Some newScore
         /\ TriviaPlayers.totalScore <$> player_of (ra_playerId input) d'
            = Some (TriviaPlayers.totalScore player
                    - from_option TriviaAnswers.scoreAwarded 0
                        (answer_of (ra_questionId input) (ra_playerId input) d)
                    + newScore)%Z
     | JoinRoom input =>
       answers d' = answers d
       /\ forall user,
            locals_user context = Some user ->
            is_Some (room_of (jr_roomId input) d) ->
            fst (server_binary64 req context fx d) = None
            /\ match limit1 (players_for (jr_roomId input)
                               (Some (user_id user)) d) with
               | Some _ => players d' = players d
               | None =>
                 exists p,
                   players d' = players d ++ [p]
                   /\ TriviaPlayers.totalScore p = 0%Z
                   /\ score_of (TriviaPlayers.id p) d' = 0%Z
               end
     | _ => players d' = players d /\ answers d' = answers d
     end.
Proof.
  intros Hkey Hfresh Hsc Hsafe d'. subst d'.
  rewrite (server_binary64_exact req context fx d Hsafe).
  destruct (server_step_consistent req context fx d Hkey Hfresh Hsc)
    as [Hkey' Hsc'].
  pose proof (server_frame req context fx d) as Hfr. cbv zeta in Hfr.
  split_and!; [done|done|].
  destruct req as [input|input|input|input|input|input|input]; try done.
  - (* joinRoom *)
    split; [done|]. intros user Hu [room Hroom].
    revert Hsc'. unfold server, finish. cbn [fst snd].
    rewrite joinRoom_unfold, Hu, Hroom.
    destruct (limit1 (players_for _ _ d)); cbn [fst snd]; [done|].
    intros Hsc'. split; [done|]. eexists. split; [done|]. split; [done|].
    rewrite <- Hsc'; [done|]. cbn. apply elem_of_app. right. by left.
  - (* recordAnswer *)
    intros user question player room Hu Hq Hp Hsame Hr Hmay newScore.
    unfold server, finish. cbn [fst snd].
    rewrite (recordAnswer_run _ _ fx _ _ _ _ _ Hu Hq Hp Hsame Hr Hmay).
    cbn [fst snd outcome_error]. split; [done|].
    rewrite answer_of_recorded, (player_of_recorded _ _ _ _ _ _ _ _ Hp).
    subst newScore. unfold spec_newScore. rewrite <- answer_isCorrect_spec.
    done.
Qed.

Lemma server_binary64_preserves_scores_witness :
  scores_consistent
    (snd (server_binary64 (RecordAnswer (mkRecordAnswer "q1" "p1" (Some KeyA)))
            (Sample.as_user Sample.alice) Sample.fx Sample.store))
  /\ TriviaPlayers.totalScore <$>
       player_of "p1"
         (snd (server_binary64
                 (RecordAnswer (mkRecordAnswer "q1" "p1" (Some KeyA)))
                 (Sample.as_user Sample.alice) Sample.fx Sample.store))
     = Some 0%Z.
Proof.
  destruct (server_binary64_preserves_scores
              (RecordAnswer (mkRecordAnswer "q1" "p1" (Some KeyA)))
              (Sample.as_user Sample.alice) Sample.fx Sample.store
              sample_store_keyed sample_store_fresh sample_store_consistent
              sample_scores_safe)
    as (_ & Hsc & Hwrites).
  split; [exact Hsc|].
  destruct (Hwrites Sample.alice Sample.question1 Sample.player1 Sample.room1)
    as (_ & _ & Htotal);
    [reflexivity | reflexivity | reflexivity | reflexivity | reflexivity
    | right; reflexivity | ].
  exact Htotal.
Defined.

(** A store with consistent scores, the keys of the schema and an unused
    identifier, whose player stands at 2^53 - 1: after a right answer to a
    new question the player's totalScore is 9007199254741000 and the sum
    of the awards 9007199254741001. *)
Lemma server_preserves_scores_counterexample :
  answers_keyed Edge.store
  /\ fresh_uuid Sample.fx Edge.store
  /\ scores_consistent Edge.store
  /\ ~ scores_consistent
         (snd (server_binary64
                 (RecordAnswer (mkRecordAnswer "q1" "p1" (Some KeyB)))
                 (Sample.as_user Sample.alice) Sample.fx Edge.store)).
Proof.
  split_and!.
  - split.
    + apply NoDup_singleton.
    + intros a Ha. apply list_elem_of_singleton in Ha as ->. by left.
  - split; intros Hin; apply list_elem_of_singleton in Hin; discriminate.
  - intros p Hp. apply list_elem_of_singleton in Hp as ->. reflexivity.
  - intros Hsc.
    specialize (Hsc (TriviaPlayers.mk "p1" "r1" (Some "alice") "Alice"
                       9007199254741000%Z 120%Z None)).
    assert (score_of "p1"
              (snd (server_binary64
                      (RecordAnswer (mkRecordAnswer "q1" "p1" (Some KeyB)))
                      (Sample.as_user Sample.alice) Sample.fx Edge.store))
            = 9007199254741001%Z) as Hsum by (by vm_compute).
    cbn [TriviaPlayers.id TriviaPlayers.totalScore] in Hsc.
    rewrite Hsum in Hsc. discriminate Hsc. by left.
Qed.

(** ** Answering again *)

(** X12. Where the scores recordAnswer reads and computes are safe
    integers, the answer it returns is the row then stored for the pair,
    and answering the same question again for the same player, with
    whatever option, makes only the last answer count: the answer row
    keeps its id and the player's totalScore ends at its value before the
    first answer, minus the award the pair had then, plus the award of
    the last answer. *)
Theorem recordAnswer_binary64_last_wins input1 input2 context fx1 fx2 d
    user question player room :
  locals_user context = Some user ->
  question_of (ra_questionId input1) d = Some question ->
  player_of (ra_playerId input1) d = Some player ->
  TriviaPlayers.roomId player = TriviaQuestions.roomId question ->
  room_of (TriviaQuestions.roomId question) d = Some room ->
  may_record user room player ->
  ra_questionId input2 = ra_questionId input1 ->
  ra_playerId input2 = ra_playerId input1 ->
  scores_safe input1 d ->
  exists answer1 d1 answer2 d2,
    recordAnswer_binary64 input1 context fx1 d = (Success answer1, d1)
    /\ answer_of (ra_questionId input1) (ra_playerId input1) d1 = Some answer1
    /\ recordAnswer_binary64 input2 context fx2 d1 = (Success answer2, d2)
    /\ answer_of (ra_questionId input1) (ra_playerId input1) d2 = Some answer2
    /\ TriviaAnswers.id answer2 = TriviaAnswers.id answer1
    /\ TriviaPlayers.totalScore <$> player_of (ra_playerId input1) d2
       = Some (TriviaPlayers.totalScore player
               - from_option TriviaAnswers.scoreAwarded 0
                   (answer_of (ra_questionId input1) (ra_playerId input1) d)
               + spec_newScore (ra_selectedOptionKey input2)
                   (TriviaQuestions.correctOptionKey question))%Z.
Proof.
  intros Hu Hq Hp Hsame Hr Hmay Hq2 Hp2 Hsafe.
  destruct (recordAnswer_last_wins input1 input2 context fx1 fx2 d user
              question player room Hu Hq Hp Hsame Hr Hmay Hq2 Hp2)
    as (answer1 & d1 & answer2 & d2 & H1 & Ha1 & H2 & Ha2 & Hid & Htotal).
  exists answer1, d1, answer2, d2.
  rewrite (scores_safe_exact input1 context fx1 d Hsafe).
  split_and!; try done.
  rewrite recordAnswer_binary64_exact; [done|].
  intros question' player' Hq' Hp'. rewrite Hq2, Hp2 in *.
  rewrite (recordAnswer_run _ _ fx1 _ _ _ _ _ Hu Hq Hp Hsame Hr Hmay) in H1.
  injection H1 as <- <-.
  unfold question_of in Hq'. cbn [questions] in Hq'.
  fold (question_of (ra_questionId input1) d) in Hq'. rewrite Hq in Hq'.
  injection Hq' as <-.
  rewrite (player_of_recorded _ _ _ _ _ _ _ _ Hp) in Hp'. injection Hp' as <-.
  rewrite answer_of_recorded.
  destruct (Hsafe player Hp) as (_ & _ & Hdiff & Hfull).
  cbv zeta in Hdiff, Hfull. unfold safe_integer in *.
  cbn [from_option TriviaPlayers.totalScore with_totalScore].
  destruct (spec_newScore_cases (ra_selectedOptionKey input2)
              (TriviaQuestions.correctOptionKey question)) as [-> | ->];
    unfold recorded_answer; cbn [TriviaAnswers.scoreAwarded];
    destruct (answer_isCorrect _ _); lia.
Qed.

Lemma recordAnswer_binary64_last_wins_witness :
  exists answer1 d1 answer2 d2,
    recordAnswer_binary64 (mkRecordAnswer "q1" "p1" (Some KeyA))
      (Sample.as_user Sample.alice) Sample.fx Sample.store
    = (Success answer1, d1)
    /\ recordAnswer_binary64 (mkRecordAnswer "q1" "p1" (Some KeyB))
         (Sample.as_user Sample.alice) (mkEffects "other" 300%Z) d1
       = (Success answer2, d2)
    /\ TriviaPlayers.totalScore <$> player_of "p1" d2 = Some 10%Z.
Proof.
  destruct (recordAnswer_binary64_last_wins
              (mkRecordAnswer "q1" "p1" (Some KeyA))
              (mkRecordAnswer "q1" "p1" (Some KeyB))
              (Sample.as_user Sample.alice) Sample.fx (mkEffects "other" 300%Z)
              Sample.store Sample.alice Sample.question1 Sample.player1
              Sample.room1 eq_refl eq_refl eq_refl eq_refl eq_refl
              (or_intror eq_refl) eq_refl eq_refl sample_scores_safe)
    as (answer1 & d1 & answer2 & d2 & H1 & _ & H2 & _ & _ & Htotal).
  exists answer1, d1, answer2, d2. exact (conj H1 (conj H2 Htotal)).
Defined.
